(** * Legal-document pipeline: chunking, recursive summarization, entity aggregation

    A shallow embedding of the three core functions of [bert-ocr.py]
    ([chunk_text], [summarize_large_text], [extract_legal_entities]) and the
    properties of them that the specification states.

    Python values are modelled as follows.
    - [str] is a list of Unicode code points ([N]); [str.split], [str.strip],
      [str.replace] and [str.join] are written out below.
    - [int] is [Z] (unbounded in Python).
    - [list] is [list]; a slice [l[a:b]] is [py_slice], with Python's
      treatment of negative and out-of-range bounds.
    - [dict] is [gmap], [set] is [gset].
    - the two Hugging Face pipelines ([summarizer], [ner_pipeline]) are
      parameters: functions that either return a value or raise ([None]).
    - a [while] loop and a recursive call may not terminate: functions that
      contain one take a fuel argument and answer [Timeout] when it runs out. *)

From stdpp Require Import gmap list strings.
From Stdlib Require Import ZArith Lia.

Local Open Scope Z_scope.

(** ** Python strings *)

Module PyStr.

Abbreviation pystr := (list N).

(** A string literal of the source, as code points. *)
Definition str (s : string) : pystr :=
  map Ascii.N_of_ascii (String.list_ascii_of_string s).
Arguments str _%_string.

(** [c.isspace()] for a single character: the code points CPython's
    [_PyUnicode_IsWhitespace] accepts. *)
Definition is_space (c : N) : bool :=
  ((9 <=? c) && (c <=? 13) || (28 <=? c) && (c <=? 32)
   || (c =? 133) || (c =? 160) || (c =? 5760)
   || (8192 <=? c) && (c <=? 8202)
   || (c =? 8232) || (c =? 8233) || (c =? 8239) || (c =? 8287)
   || (c =? 12288))%N.

(** The pending word of the scanner, emitted when a separator or the end of
    the string is reached. *)
Definition flush (cur : pystr) : list pystr :=
  match cur with [] => [] | _ => [cur] end.

(** [s.split()] scans left to right; [cur] is the word being read. *)
Fixpoint split_from (cur s : pystr) : list pystr :=
  match s with
  | [] => flush cur
  | c :: s' =>
      if is_space c then flush cur ++ split_from [] s'
      else split_from (cur ++ [c]) s'
  end.

(** [s.split()]: the maximal runs of non-whitespace characters. *)
Definition split (s : pystr) : list pystr := split_from [] s.

(** [sep.join(l)]. *)
Fixpoint join (sep : pystr) (l : list pystr) : pystr :=
  match l with
  | [] => []
  | [w] => w
  | w :: rest => w ++ sep ++ join sep rest
  end.

Fixpoint dropwhile (p : N -> bool) (s : pystr) : pystr :=
  match s with
  | [] => []
  | c :: s' => if p c then dropwhile p s' else s
  end.

Definition lstrip (p : N -> bool) (s : pystr) : pystr := dropwhile p s.
Definition rstrip (p : N -> bool) (s : pystr) : pystr :=
  rev (dropwhile p (rev s)).

(** [s.strip()]: leading and trailing whitespace removed. *)
Definition strip (s : pystr) : pystr := rstrip is_space (lstrip is_space s).

(** [s.strip(chars)]: leading and trailing characters of [chars] removed. *)
Definition strip_chars (chars s : pystr) : pystr :=
  let p c := bool_decide (c ∈ chars) in rstrip p (lstrip p s).

Fixpoint is_prefix (p s : pystr) : bool :=
  match p, s with
  | [], _ => true
  | a :: p', b :: s' => (a =? b)%N && is_prefix p' s'
  | _ :: _, [] => false
  end.

(** Scan for [s.replace(old, new)] with [old] non-empty: [skip] characters
    of a match just replaced are still to be passed over. *)
Fixpoint replace_from (old new : pystr) (skip : nat) (s : pystr) : pystr :=
  match s with
  | [] => []
  | c :: s' =>
      match skip with
      | S k => replace_from old new k s'
      | O =>
          if is_prefix old s
          then new ++ replace_from old new (Nat.pred (length old)) s'
          else c :: replace_from old new O s'
      end
  end.

(** [s.replace(old, new)]: every non-overlapping occurrence, left to right
    (an empty [old] matches before every character and at the end). *)
Definition replace (old new s : pystr) : pystr :=
  match old with
  | [] => new ++ flat_map (fun c => c :: new) s
  | _ => replace_from old new O s
  end.

(** [l[lo:hi]] of Python: a negative bound counts from the end, and both
    bounds are clipped to the list. *)
Definition slice_index (n i : Z) : Z :=
  if i <? 0 then Z.max (i + n) 0 else Z.min i n.

Definition py_slice {A} (l : list A) (lo hi : Z) : list A :=
  let n := Z.of_nat (length l) in
  let lo' := slice_index n lo in
  let hi' := slice_index n hi in
  take (Z.to_nat (hi' - lo')) (drop (Z.to_nat lo') l).

(** [len(s.split())]. *)
Definition word_count (s : pystr) : Z := Z.of_nat (length (split s)).

End PyStr.
Import PyStr.

(** ** Outcomes of a call *)

Inductive outcome (A : Type) : Type :=
| Return (a : A)   (* the call returns [a] *)
| Raise            (* an exception propagates to the caller *)
| Timeout.         (* the fuel ran out before the call finished *)
Arguments Return {A} a.
Arguments Raise {A}.
Arguments Timeout {A}.

Global Instance outcome_fmap : FMap outcome := fun A B f o =>
  match o with
  | Return a => Return (f a)
  | Raise => Raise
  | Timeout => Timeout
  end.

(** A call that returns [a] when given enough fuel. *)
Definition returns {A} (f : nat -> outcome A) (a : A) : Prop :=
  exists fuel, f fuel = Return a.

(** A call that returns nothing, whatever the fuel: it raises or never
    finishes. *)
Definition returns_nothing {A} (f : nat -> outcome A) : Prop :=
  forall fuel a, f fuel ≠ Return a.

(** A call that never finishes, whatever the fuel. *)
Definition never_returns {A} (f : nat -> outcome A) : Prop :=
  forall fuel, f fuel = Timeout.

(** ** Chunking ([chunk_text]) *)

Definition default_chunk_size : Z := 1000.
Definition default_overlap : Z := 200.

(** The separator of [" ".join(...)]. *)
Definition space : pystr := str " ".

(** The [while start < len(words)] loop; [start] and [chunks] are the
    loop's variables. One unit of fuel is spent per test of the condition. *)
Fixpoint chunk_loop (fuel : nat) (words : list pystr) (chunk_size overlap : Z)
    (start : Z) (chunks : list pystr) : outcome (list pystr) :=
  match fuel with
  | O => Timeout
  | S fuel' =>
      if start <? Z.of_nat (length words) then
        let end_ := start + chunk_size in
        chunk_loop fuel' words chunk_size overlap
          (start + (chunk_size - overlap))
          (chunks ++ [join space (py_slice words start end_)])
      else Return chunks
  end.

Definition chunk_text (fuel : nat) (text : pystr) (chunk_size overlap : Z)
    : outcome (list pystr) :=
  let words := split text in
  chunk_loop fuel words chunk_size overlap 0 [].

(** ** Recursive summarization ([summarize_large_text]) *)

Section Summarization.

(** [summarizer(chunk, max_length=250, min_length=100,
    do_sample=False)[0]['summary_text']]: the summary, or [None] when the
    call raises. *)
Variable summarizer : pystr -> option pystr.

(** The [for chunk in chunks] loop with its [try] / [except: continue]. *)
Fixpoint summarize_chunks (chunks summaries : list pystr) : list pystr :=
  match chunks with
  | [] => summaries
  | chunk :: rest =>
      match summarizer chunk with
      | Some summary => summarize_chunks rest (summaries ++ [summary])
      | None => summarize_chunks rest summaries
      end
  end.

(** The function returns [combined]; the second component is a ghost count
    of the rounds (calls of the function, this one included) it took. The
    fuel bounds the recursion depth and each round's chunking loop. *)
Fixpoint summarize_large_text (fuel : nat) (text : pystr) (max_chunk_words : Z)
    : outcome (pystr * nat) :=
  match fuel with
  | O => Timeout
  | S fuel' =>
      match chunk_text fuel text max_chunk_words default_overlap with
      | Return chunks =>
          let summaries := summarize_chunks chunks [] in
          let combined := join space summaries in
          if word_count combined >? max_chunk_words then
            match summarize_large_text fuel' combined max_chunk_words with
            | Return (summary, rounds) => Return (summary, S rounds)
            | Raise => Raise
            | Timeout => Timeout
            end
          else Return (combined, 1%nat)
      | Raise => Raise
      | Timeout => Timeout
      end
  end.

End Summarization.

(** ** Entity aggregation ([extract_legal_entities]) *)

(** One result of the NER pipeline: [r['entity']] and [r['word']]. *)
Record span : Type := Span { entity : pystr; word : pystr }.

Abbreviation entity_index := (gmap pystr (gset pystr)).

(** The body of [for r in results]. *)
Definition add_span (entities : entity_index) (r : span) : entity_index :=
  let ent_type := entity r in
  let ent_val := replace (str "##") (str "") (word r) in
  let entities' :=
    match entities !! ent_type with
    | None => <[ent_type := ∅]> entities
    | Some _ => entities
    end in
  alter (fun vals => vals ∪ {[ent_val]}) ent_type entities'.

(** [set([v.strip(" ,.'") for v in vals if v.strip()])]. *)
Definition clean_values (vals : gset pystr) : gset pystr :=
  set_map (strip_chars (str " ,.'")) (filter (fun v => strip v ≠ []) vals).

Section Entities.

(** [ner_pipeline(chunk)]: the spans found, or [None] when the call raises
    (the function has no handler, so the exception propagates). *)
Variable ner_pipeline : pystr -> option (list span).

(** The [for chunk in chunks] loop. *)
Fixpoint ner_loop (chunks : list pystr) (entities : entity_index)
    : option entity_index :=
  match chunks with
  | [] => Some entities
  | chunk :: rest =>
      match ner_pipeline chunk with
      | Some results => ner_loop rest (foldl add_span entities results)
      | None => None
      end
  end.

Definition extract_legal_entities (fuel : nat) (text : pystr) (chunk_size : Z)
    : outcome entity_index :=
  match chunk_text fuel text chunk_size default_overlap with
  | Return chunks =>
      match ner_loop chunks ∅ with
      | Some entities => Return (clean_values <$> entities)
      | None => Raise
      end
  | Raise => Raise
  | Timeout => Timeout
  end.

End Entities.

(** ** Vocabulary of the specification *)

(** A valid chunking configuration: a positive window and an overlap that
    leaves a positive stride. *)
Definition valid_config (window_size overlap : Z) : Prop :=
  0 < window_size /\ 0 <= overlap < window_size.

(** A word: non-empty and free of whitespace. *)
Definition is_word (w : pystr) : Prop :=
  w ≠ [] /\ Forall (fun c => is_space c = false) w.

(** The words at indices [lo, lo + size) of the sequence, cut at its end. *)
Definition words_at (words : list pystr) (lo : nat) (size : nat)
    : list pystr :=
  take size (drop lo words).

(** The number of windows over [n] words at a positive stride:
    the least [m] with [n <= m * stride]. *)
Definition num_chunks (n stride : Z) : nat :=
  Z.to_nat ((n + stride - 1) / stride).

(** Window [k] over the words: the words at indices
    [k * stride, k * stride + window_size), joined by single spaces. *)
Definition window (words : list pystr) (window_size stride k : nat) : pystr :=
  join space (words_at words (k * stride) window_size).

(** The windows over the words, in order. *)
Definition windows (words : list pystr) (window_size stride : nat)
    : list pystr :=
  window words window_size stride
    <$> seq 0 (num_chunks (Z.of_nat (length words)) (Z.of_nat stride)).

(** Every whitespace run replaced by one space: a whitespace character is
    dropped when another follows it and becomes a space otherwise. *)
Fixpoint collapse_ws (s : pystr) : pystr :=
  match s with
  | [] => []
  | c :: s' =>
      if is_space c then
        match s' with
        | c' :: _ => if is_space c' then collapse_ws s' else 32%N :: collapse_ws s'
        | [] => [32%N]
        end
      else c :: collapse_ws s'
  end.

(** Whitespace normalization: leading and trailing whitespace removed, every
    remaining whitespace run replaced by a single space. *)
Definition normalize_ws (s : pystr) : pystr := collapse_ws (strip s).

(** The combined summary of one round over a text, for a configuration on
    which chunking terminates. *)
Definition round_of (summarizer : pystr -> option pystr)
    (max_chunk_words : Z) (text : pystr) : pystr :=
  join space
    (omap summarizer
       (windows (split text) (Z.to_nat max_chunk_words)
          (Z.to_nat (max_chunk_words - default_overlap)))).

(** The value a span adds to the set of its type: its word with the
    sub-token markers removed. *)
Definition raw_value (r : span) : pystr :=
  replace (str "##") (str "") (word r).

(** [sub in s] for strings: [sub] occurs in [s]. *)
Fixpoint contains (sub s : pystr) : bool :=
  is_prefix sub s
  || match s with
     | [] => false
     | _ :: s' => contains sub s'
     end.

(** The summarizer that returns its input. *)
Definition identity_summarizer (chunk : pystr) : option pystr := Some chunk.

(** The summarizer that fails on every chunk. *)
Definition failing_summarizer (chunk : pystr) : option pystr := None.

(** ** Paths ([os.path] on a POSIX system) *)

Module Path.

Definition sep : N := 47.     (* "/" *)
Definition extsep : N := 46.  (* "." *)

(** [s.rfind(c)] for a single character: the highest index at which it
    occurs, [-1] when it does not. *)
Fixpoint rfind (c : N) (s : pystr) : Z :=
  match s with
  | [] => -1
  | a :: s' =>
      let r := rfind c s' in
      if 0 <=? r then r + 1 else if (a =? c)%N then 0 else -1
  end.

(** [p[i:]]. *)
Definition from (p : pystr) (i : Z) : pystr :=
  py_slice p i (Z.of_nat (length p)).

(** [os.path.basename(p)]: what follows the last separator. *)
Definition basename (p : pystr) : pystr := from p (rfind sep p + 1).

(** [os.path.splitext(p)]: the path is cut at its last dot when that dot
    lies in the last component and some character of that component before
    it is not a dot (leading dots belong to the name). *)
Definition splitext (p : pystr) : pystr * pystr :=
  let sepIndex := rfind sep p in
  let dotIndex := rfind extsep p in
  if (dotIndex >? sepIndex)
     && existsb (fun c => negb (c =? extsep)%N)
          (py_slice p (sepIndex + 1) dotIndex)
  then (py_slice p 0 dotIndex, from p dotIndex)
  else (p, []).

(** [os.path.join(a, b)]. *)
Definition join (a b : pystr) : pystr :=
  if bool_decide (head b = Some sep) then b
  else if bool_decide (a = []) || bool_decide (last a = Some sep) then a ++ b
  else a ++ sep :: b.

End Path.

(** ** Text extraction ([extract_text] and the four readers) *)

(** The string of one line feed. *)
Definition newline : pystr := [10%N].

(** A page as [fitz] presents it: its text layer, and what [pytesseract]
    reads off its rendering ([None] when the OCR call raises). *)
Record pdf_page : Type :=
  { get_text : pystr; image_to_string : option pystr }.

(** The files the readers see: what each library call gives for a path,
    [None] when it raises. *)
Record files : Type :=
  { fitz_open : pystr -> option (list pdf_page);
    docx_paragraphs : pystr -> option (list pystr);
    read_utf8 : pystr -> option pystr;
    image_open_to_string : pystr -> option pystr;
    (* [os.makedirs(..., exist_ok=True)], [open(path, "w")] and the writes *)
    write_report : pystr -> bool }.

(** The [for page in doc] loop of [extract_text_from_pdf]. *)
Fixpoint pdf_pages_text (pages : list pdf_page) (text : pystr)
    : outcome pystr :=
  match pages with
  | [] => Return text
  | page :: rest =>
      let page_text := get_text page in
      match strip page_text with
      | [] =>
          match image_to_string page with
          | Some page_text' =>
              pdf_pages_text rest (text ++ page_text' ++ newline)
          | None => Raise
          end
      | _ => pdf_pages_text rest (text ++ page_text ++ newline)
      end
  end.

Definition extract_text_from_pdf (fs : files) (pdf_path : pystr)
    : outcome pystr :=
  match fitz_open fs pdf_path with
  | Some doc => pdf_pages_text doc []
  | None => Raise
  end.

Definition extract_text_from_docx (fs : files) (docx_path : pystr)
    : outcome pystr :=
  match docx_paragraphs fs docx_path with
  | Some paragraphs => Return (join newline paragraphs)
  | None => Raise
  end.

Definition extract_text_from_txt (fs : files) (txt_path : pystr)
    : outcome pystr :=
  match read_utf8 fs txt_path with
  | Some text => Return text
  | None => Raise
  end.

Definition extract_text_from_image (fs : files) (img_path : pystr)
    : outcome pystr :=
  match image_open_to_string fs img_path with
  | Some text => Return text
  | None => Raise
  end.

(** What [extract_text] gives: the text, the [ValueError] it raises itself,
    or an exception of a reader. *)
Inductive extraction : Type :=
| Extracted (text : pystr)
| ValueError (message : pystr)
| ReaderRaised.

Definition of_reader (o : outcome pystr) : extraction :=
  match o with
  | Return text => Extracted text
  | Raise | Timeout => ReaderRaised
  end.

Section ExtractText.

(** [str.lower]; the Unicode tables behind it are not modelled. *)
Variable lower : pystr -> pystr.
Variable fs : files.

Definition extract_text (file_path : pystr) : extraction :=
  let ext := lower (snd (Path.splitext file_path)) in
  if bool_decide (ext = str ".pdf") then
    of_reader (extract_text_from_pdf fs file_path)
  else if bool_decide (ext = str ".docx") then
    of_reader (extract_text_from_docx fs file_path)
  else if bool_decide (ext = str ".txt") then
    of_reader (extract_text_from_txt fs file_path)
  else if bool_decide
            (ext ∈ [str ".jpg"; str ".jpeg"; str ".png"; str ".bmp";
                    str ".tiff"]) then
    of_reader (extract_text_from_image fs file_path)
  else ValueError (str "Unsupported file type: " ++ ext).

(** ** The pipeline ([process_legal_document]) *)

(** The path of the report: [output_file] of [process_legal_document]. *)
Definition output_file_of (file_path : pystr) : pystr :=
  let output_folder := str "legal_document_analysis" in
  let base_name := fst (Path.splitext (Path.basename file_path)) in
  Path.join output_folder (base_name ++ str "_analysis.txt").

(** The function returns the path of the report it wrote. The text of the
    report lists each set in iteration order, which Python leaves open; it
    is not modelled. *)
Definition process_legal_document
    (summarizer : pystr -> option pystr)
    (ner_pipeline : pystr -> option (list span))
    (fuel : nat) (file_path : pystr) : outcome pystr :=
  match extract_text file_path with
  | Extracted text =>
      match summarize_large_text summarizer fuel text 1000 with
      | Return (summary, _) =>
          match extract_legal_entities ner_pipeline fuel text 500 with
          | Return entities =>
              let output_file := output_file_of file_path in
              if write_report fs output_file then Return output_file
              else Raise
          | Raise => Raise
          | Timeout => Timeout
          end
      | Raise => Raise
      | Timeout => Timeout
      end
  | ValueError _ | ReaderRaised => Raise
  end.

End ExtractText.

(** ** The demonstration interface ([custom_ui.py]) *)

Module Ui.

Section Pdf.

(** A rendered page image ([PIL.Image]); its pixels play no part. *)
Variable image : Type.

(** A page: its text layer ([page.get_text("text")]) and its rendering at
    150 dpi as an image ([None] when rendering raises). *)
Record page : Type := { text_layer : pystr; rendering : option image }.

(** The [for page in doc] loop; an exception of the rendering is not
    caught. *)
Fixpoint pages_loop (doc : list page) (texts : list pystr)
    (page_images : list image) : outcome (list pystr * list image) :=
  match doc with
  | [] => Return (texts, page_images)
  | pg :: rest =>
      let text := text_layer pg in
      match strip text with
      | [] =>
          match rendering pg with
          | Some img => pages_loop rest texts (page_images ++ [img])
          | None => Raise
          end
      | _ => pages_loop rest (texts ++ [text]) page_images
      end
  end.

(** [doc] is [None] when [fitz.open] raises; the function then reports the
    error on the page and returns empty results. *)
Definition extract_text_from_pdf (doc : option (list page))
    : outcome (pystr * list image) :=
  match doc with
  | None => Return ([], [])
  | Some pages =>
      match pages_loop pages [] [] with
      | Return (texts, page_images) =>
          Return (strip (join (newline ++ newline) texts), page_images)
      | Raise => Raise
      | Timeout => Timeout
      end
  end.

End Pdf.

(** The characters of the class [[.!?]]. *)
Definition is_terminator (c : N) : bool :=
  ((c =? 46) || (c =? 33) || (c =? 63))%N.

(** [re.split(r'(?<=[.!?])\s+', s)], scanning left to right. [cur] is the
    piece being read, [after] tells whether the previous character is one
    of [.!?], and [in_sep] whether a separator is being consumed: a
    separator starts at a whitespace character that follows a terminator
    and extends over the whole whitespace run. *)
Fixpoint sentences_from (cur : pystr) (after in_sep : bool) (s : pystr)
    : list pystr :=
  match s with
  | [] => [cur]
  | c :: s' =>
      if is_space c then
        if in_sep then sentences_from cur false true s'
        else if after then cur :: sentences_from [] false true s'
        else sentences_from (cur ++ [c]) false false s'
      else sentences_from (cur ++ [c]) (is_terminator c) false s'
  end.

Definition re_split_sentences (s : pystr) : list pystr :=
  sentences_from [] false false s.

Definition fake_summarize (text : pystr) : pystr :=
  let sentences := re_split_sentences (strip text) in
  match sentences with
  | [] => py_slice text 0 500
  | _ => join space (py_slice sentences 0 2)
  end.

End Ui.

(** ** The interpreter's recursion limit *)

(** The model above lets the recursion go as deep as the fuel. CPython
    refuses a call of a Python function once the stack holds as many frames
    as the recursion limit allows, with a [RecursionError] raised at the
    call. [summarize_large_text] with that limit: [frames] counts the nested
    calls the interpreter still allows inside the body.
    - With no frame left the call of [chunk_text] raises; it stands outside
      the [try], so the error leaves the function, and every caller up the
      recursion, which has no handler either.
    - The summarizer is called inside the [try]: whatever it raises for want
      of frames is caught like any other failure, so it is given the frames
      it may use and answers [None] in that case too.
    - [split] and [join] are built in and use no frame.
    The recursion is on [frames]; the fuel only bounds each chunking loop. *)
Section RecursionLimit.

Variable summarizer : nat -> pystr -> option pystr.

Fixpoint summarize_large_text_frames (frames fuel : nat) (text : pystr)
    (max_chunk_words : Z) : outcome (pystr * nat) :=
  match frames with
  | O => Raise
  | S frames' =>
      match chunk_text fuel text max_chunk_words default_overlap with
      | Return chunks =>
          let summaries := summarize_chunks (summarizer frames) chunks [] in
          let combined := join space summaries in
          if word_count combined >? max_chunk_words then
            match summarize_large_text_frames frames' fuel combined
                    max_chunk_words with
            | Return (summary, rounds) => Return (summary, S rounds)
            | Raise => Raise
            | Timeout => Timeout
            end
          else Return (combined, 1%nat)
      | Raise => Raise
      | Timeout => Timeout
      end
  end.

(** The text after [n] rounds of a call that has [frames] frames: round
    [i] runs with [frames - (i - 1)] of them. *)
Fixpoint rounds_within (max_chunk_words : Z) (frames n : nat) (text : pystr)
    : pystr :=
  match n with
  | O => text
  | S n' =>
      rounds_within max_chunk_words (Nat.pred frames) n'
        (round_of (summarizer frames) max_chunk_words text)
  end.

(** The outcome of the call once every chunking loop has run to its end,
    for a configuration on which chunking ends. *)
Fixpoint summarize_within (max_chunk_words : Z) (frames : nat) (text : pystr)
    : outcome (pystr * nat) :=
  match frames with
  | O => Raise
  | S frames' =>
      let combined := round_of (summarizer frames) max_chunk_words text in
      if word_count combined >? max_chunk_words then
        match summarize_within max_chunk_words frames' combined with
        | Return (summary, rounds) => Return (summary, S rounds)
        | Raise => Raise
        | Timeout => Timeout
        end
      else Return (combined, 1%nat)
  end.

End RecursionLimit.

(** A call that ends in an exception whatever the number of frames. *)
Definition always_raises {A} (f : nat -> nat -> outcome A) : Prop :=
  forall frames, exists fuel, f frames fuel = Raise.

(** What a caller in the recursion makes of the outcome of the call it
    returns: the same summary, one round later, or the same exception. *)
Definition next_round (o : outcome (pystr * nat)) : outcome (pystr * nat) :=
  (fun '(summary, rounds) => (summary, S rounds)) <$> o.

(** ** Normalization in the words of the specification *)

(** ASCII punctuation ([string.punctuation]). *)
Definition is_punctuation (c : N) : bool :=
  ((33 <=? c) && (c <=? 47) || (58 <=? c) && (c <=? 64)
   || (91 <=? c) && (c <=? 96) || (123 <=? c) && (c <=? 126))%N.

(** Following the specification's words, not the code: the sub-token
    continuation markers are removed, then leading and trailing punctuation
    and whitespace. *)
Definition spec_normalize (raw : pystr) : pystr :=
  let p c := is_space c || is_punctuation c in
  rstrip p (lstrip p (replace (str "##") (str "") raw)).

(** The normalization of the code: the markers are removed, then leading
    and trailing spaces, commas, periods and apostrophes. *)
Definition stored_value (r : span) : pystr :=
  strip_chars (str " ,.'") (raw_value r).

(** The values the spans of type [t] contribute to the index, in the order
    of the spans and with repetitions: the stored form of every span whose
    raw value has a non-whitespace character. *)
Definition stored_values (t : pystr) (spans : list span) : list pystr :=
  stored_value
    <$> filter (fun r => entity r = t /\ strip (raw_value r) ≠ []) spans.

(** ** Results of the NER pipeline as dictionaries *)

(** One result of the pipeline as the dictionary it is: [r['entity']] and
    [r['word']] raise [KeyError] when the key is missing ([None]). A [span]
    is a result that has both keys. *)
Record ner_result : Type :=
  { entity_key : option pystr; word_key : option pystr }.

(** The [for r in results] loop over dictionaries; a [KeyError] is not
    caught. *)
Fixpoint add_results (results : list ner_result) (entities : entity_index)
    : option entity_index :=
  match results with
  | [] => Some entities
  | r :: rest =>
      match entity_key r with
      | Some ent_type =>
          match word_key r with
          | Some w => add_results rest (add_span entities (Span ent_type w))
          | None => None
          end
      | None => None
      end
  end.

Section EntitiesFromDicts.

Variable ner_pipeline : pystr -> option (list ner_result).

Fixpoint ner_loop_dicts (chunks : list pystr) (entities : entity_index)
    : option entity_index :=
  match chunks with
  | [] => Some entities
  | chunk :: rest =>
      match ner_pipeline chunk with
      | Some results =>
          match add_results results entities with
          | Some entities' => ner_loop_dicts rest entities'
          | None => None
          end
      | None => None
      end
  end.

(** [extract_legal_entities] over a pipeline whose results may lack a
    key. *)
Definition extract_legal_entities_dicts (fuel : nat) (text : pystr)
    (chunk_size : Z) : outcome entity_index :=
  match chunk_text fuel text chunk_size default_overlap with
  | Return chunks =>
      match ner_loop_dicts chunks ∅ with
      | Some entities => Return (clean_values <$> entities)
      | None => Raise
      end
  | Raise => Raise
  | Timeout => Timeout
  end.

End EntitiesFromDicts.

(** A result that has both keys, as a span. *)
Definition span_of (r : ner_result) : option span :=
  match entity_key r, word_key r with
  | Some ent_type, Some w => Some (Span ent_type w)
  | _, _ => None
  end.

(** The results of one chunk as spans, when each of them has both keys. *)
Fixpoint spans_of (results : list ner_result) : option (list span) :=
  match results with
  | [] => Some []
  | r :: rest =>
      match span_of r, spans_of rest with
      | Some sp, Some spans => Some (sp :: spans)
      | _, _ => None
      end
  end.

(** A pipeline of dictionaries seen as a pipeline of spans: it fails on a
    chunk when the call raises or one of the results lacks a key. *)
Definition spans_pipeline (ner_pipeline : pystr -> option (list ner_result))
    (chunk : pystr) : option (list span) :=
  match ner_pipeline chunk with
  | Some results => spans_of results
  | None => None
  end.

(** ** Sample inputs for the worked instances *)

(** A summarizer that keeps the first 400 words of a chunk. *)
Definition first_400_words (frames : nat) (chunk : pystr) : option pystr :=
  Some (join space (take 400 (split chunk))).

(** A summarizer that fails on the chunk ["b"] and answers ["ok"] on every
    other chunk. *)
Definition fails_on_b (chunk : pystr) : option pystr :=
  if bool_decide (chunk = str "b") then None else Some (str "ok").

(** A pipeline that finds one organisation per chunk, written as [word1] in
    the chunk ["a b"] and as [word2] in every other chunk. *)
Definition org_pipeline (word1 word2 chunk : pystr) : option (list span) :=
  if bool_decide (chunk = str "a b")
  then Some [Span (str "ORG") word1]
  else Some [Span (str "ORG") word2].

(** The horizontal tab. *)
Definition tab : N := 9%N.

(** A pipeline whose result for the chunk ["b"] lacks the key ['word'], and
    which finds one organisation in every other chunk. *)
Definition keyless_pipeline (chunk : pystr) : option (list ner_result) :=
  if bool_decide (chunk = str "b")
  then Some [ {| entity_key := Some (str "ORG"); word_key := None |} ]
  else Some [ {| entity_key := Some (str "ORG");
                 word_key := Some (str "Acme") |} ].

(** A two-page PDF whose second page is a scan. *)
Definition demo_doc : list pdf_page :=
  [ {| get_text := str "first page"; image_to_string := None |};
    {| get_text := str "  "; image_to_string := Some (str "scanned page") |} ].

Definition demo_files : files :=
  {| fitz_open := fun _ => Some demo_doc;
     docx_paragraphs := fun _ => Some [str "one two"; str ""; str "three"];
     read_utf8 := fun _ => Some (str "Acme Corp. signed.");
     image_open_to_string := fun _ => None;
     write_report := fun _ => true |}.

(** * Properties *)

(** ** The scenarios of the specification, computed *)

Example chunk_text_demo :
  chunk_text 5 (str " a  b c ") 2 1 = Return [str "a b"; str "b c"; str "c"].
Proof. vm_compute. reflexivity. Qed.

Example extract_demo :
  extract_legal_entities
    (fun _ => Some [Span (str "ORG") (str "Acme"); Span (str "ORG") (str "##Corp")])
    5 (str "Acme Corp. signed a contract. The penalty clause applies.") 500
  = Return {[ str "ORG" := {[ str "Acme"; str "Corp" ]} ]}.
Proof. vm_compute. reflexivity. Qed.

Example summarize_demo :
  summarize_large_text identity_summarizer 5 (str "a  b") 1000
  = Return (str "a b", 1%nat).
Proof. vm_compute. reflexivity. Qed.

(** 1500 words with the default window of 1000 and overlap of 200 give two
    chunks; a summarizer that keeps the first 50 words of a chunk yields a
    combined summary of 100 words, and there is no second round. *)
Example summarize_1500_words :
  let text := join space (replicate 1500 (str "w")) in
  let first_50 chunk := Some (join space (take 50 (split chunk))) in
  (length <$> chunk_text 1501 text default_chunk_size default_overlap)
  = Return 2%nat
  /\ summarize_large_text first_50 1501 text default_chunk_size
     = Return (join space (replicate 100 (str "w")), 1%nat).
Proof. split; vm_compute; reflexivity. Qed.

(** ** Words, [split] and [join] *)

Section JoinWords.

Implicit Types (sep w : pystr) (ws : list pystr) (wss : list (list pystr)).

Lemma join_cons sep w ws :
  ws ≠ [] -> join sep (w :: ws) = w ++ sep ++ join sep ws.
Proof. destruct ws; [congruence | reflexivity]. Qed.

Lemma join_app sep ws1 ws2 :
  ws1 ≠ [] -> ws2 ≠ [] ->
  join sep (ws1 ++ ws2) = join sep ws1 ++ sep ++ join sep ws2.
Proof.
  intros H1 H2. induction ws1 as [|w ws1 IH]; [congruence|].
  destruct ws1 as [|w' ws1].
  - simpl app. rewrite join_cons by assumption. reflexivity.
  - change ((w :: w' :: ws1) ++ ws2) with (w :: ((w' :: ws1) ++ ws2)).
    rewrite !join_cons by discriminate. rewrite IH by discriminate.
    rewrite <- !app_assoc. reflexivity.
Qed.

(** Joining joined groups is joining all their members. *)
Lemma join_join sep wss :
  Forall (fun ws => ws ≠ []) wss ->
  join sep (join sep <$> wss) = join sep (concat wss).
Proof.
  induction wss as [|ws wss IH]; intros Hne; [reflexivity|].
  inversion Hne as [|? ? Hws Hwss]; subst.
  destruct wss as [|ws' wss].
  - simpl. rewrite app_nil_r. reflexivity.
  - cbn [fmap list_fmap concat] in *.
    rewrite join_cons by discriminate. rewrite IH by assumption.
    symmetry. apply join_app; [assumption|].
    inversion Hwss; subst. destruct ws'; [congruence | discriminate].
Qed.

End JoinWords.

Section SplitJoin.

Implicit Types (s cur w : pystr) (ws : list pystr).

Lemma flush_nonempty cur : cur ≠ [] -> flush cur = [cur].
Proof. destruct cur; [congruence | reflexivity]. Qed.

Lemma split_from_space cur c s :
  is_space c = true -> split_from cur (c :: s) = flush cur ++ split_from [] s.
Proof. intros H. simpl. rewrite H. reflexivity. Qed.

(** Reading a whitespace-free stretch only extends the pending word. *)
Lemma split_from_app_word w : forall cur s,
  Forall (fun c => is_space c = false) w ->
  split_from cur (w ++ s) = split_from (cur ++ w) s.
Proof.
  induction w as [|c w IH]; intros cur s Hw.
  - rewrite app_nil_r. reflexivity.
  - inversion Hw as [|? ? Hc Hw']; subst. simpl. rewrite Hc.
    rewrite IH by assumption. rewrite <- app_assoc. reflexivity.
Qed.

(** Everything [split] returns is a word. *)
Lemma split_from_words s : forall cur,
  Forall (fun c => is_space c = false) cur ->
  Forall is_word (split_from cur s).
Proof.
  induction s as [|c s IH]; intros cur Hcur; simpl.
  - destruct cur as [|a cur]; constructor; [|constructor].
    split; [discriminate | assumption].
  - destruct (is_space c) eqn:Hc.
    + apply Forall_app. split; [|apply IH; constructor].
      destruct cur as [|a cur]; constructor; [|constructor].
      split; [discriminate | assumption].
    + apply IH. apply Forall_app. split; [assumption|].
      constructor; [assumption | constructor].
Qed.

Lemma split_words s : Forall is_word (split s).
Proof. apply split_from_words. constructor. Qed.

Lemma space_is_space : is_space 32 = true.
Proof. reflexivity. Qed.

(** Splitting a single-space-joined sequence of words gives the words back. *)
Lemma split_join ws : Forall is_word ws -> split (join space ws) = ws.
Proof.
  unfold split. induction ws as [|w ws IH]; intros Hws; [reflexivity|].
  inversion Hws as [|? ? [Hne Hw] Hws']; subst.
  destruct ws as [|w' ws].
  - simpl. rewrite <- (app_nil_r w) at 1.
    rewrite split_from_app_word by assumption. simpl.
    apply flush_nonempty. assumption.
  - change (join space (w :: w' :: ws))
      with (w ++ 32%N :: join space (w' :: ws)).
    rewrite split_from_app_word by assumption.
    rewrite split_from_space by reflexivity.
    rewrite IH by assumption. simpl.
    rewrite flush_nonempty by assumption. reflexivity.
Qed.

(** Trailing whitespace does not change the words. *)
Lemma split_from_trailing t : forall cur,
  Forall (fun c => is_space c = true) t -> split_from cur t = flush cur.
Proof.
  induction t as [|c t IH]; intros cur Ht; [reflexivity|].
  inversion Ht as [|? ? Hc Ht']; subst.
  rewrite split_from_space by assumption.
  rewrite IH by assumption. simpl. apply app_nil_r.
Qed.

Lemma split_from_app_trailing s t : forall cur,
  Forall (fun c => is_space c = true) t ->
  split_from cur (s ++ t) = split_from cur s.
Proof.
  induction s as [|c s IH]; intros cur Ht; simpl.
  - apply split_from_trailing. assumption.
  - destruct (is_space c); rewrite IH by assumption; reflexivity.
Qed.

Lemma split_dropwhile s : split (dropwhile is_space s) = split s.
Proof.
  unfold split. induction s as [|c s IH]; [reflexivity|].
  simpl. destruct (is_space c) eqn:Hc; [exact IH|].
  simpl. rewrite Hc. reflexivity.
Qed.

(** A string is what [dropwhile] keeps, after a stretch that satisfies the
    predicate. *)
Lemma dropwhile_decompose p s :
  exists t, s = t ++ dropwhile p s /\ Forall (fun c => p c = true) t.
Proof.
  induction s as [|c s [t [Ht Hall]]]; simpl.
  - exists []. split; [reflexivity | constructor].
  - destruct (p c) eqn:Hc.
    + exists (c :: t). split; [simpl; congruence | constructor; assumption].
    + exists []. split; [reflexivity | constructor].
Qed.

Lemma split_rstrip s : split (rstrip is_space s) = split s.
Proof.
  unfold rstrip.
  destruct (dropwhile_decompose is_space (rev s)) as [t [Ht Hall]].
  assert (Hs : s = rev (dropwhile is_space (rev s)) ++ rev t).
  { rewrite <- rev_app_distr, <- Ht, rev_involutive. reflexivity. }
  rewrite Hs at 2. unfold split. rewrite split_from_app_trailing; [reflexivity|].
  apply Forall_rev. assumption.
Qed.

Lemma split_strip s : split (strip s) = split s.
Proof.
  unfold strip, lstrip. rewrite split_rstrip. apply split_dropwhile.
Qed.

Lemma split_from_collapse s : forall cur,
  split_from cur (collapse_ws s) = split_from cur s.
Proof.
  induction s as [|c s IH]; intros cur; [reflexivity|].
  cbn [collapse_ws]. destruct (is_space c) eqn:Hc.
  - destruct s as [|c' s'].
    + simpl. rewrite Hc. reflexivity.
    + destruct (is_space c') eqn:Hc'.
      * rewrite IH. rewrite (split_from_space cur c) by assumption.
        rewrite !(split_from_space _ c') by assumption. reflexivity.
      * rewrite (split_from_space cur 32%N) by reflexivity.
        rewrite (split_from_space cur c) by assumption. rewrite IH. reflexivity.
  - simpl. rewrite Hc. apply IH.
Qed.

(** Whitespace normalization keeps the words of a text. *)
Lemma split_normalize_ws s : split (normalize_ws s) = split s.
Proof.
  unfold normalize_ws, split. rewrite split_from_collapse. apply split_strip.
Qed.

Lemma split_from_nonempty s : forall cur, cur ≠ [] -> split_from cur s ≠ [].
Proof.
  induction s as [|c s IH]; intros cur Hcur; simpl.
  - rewrite flush_nonempty by assumption. discriminate.
  - destruct (is_space c).
    + rewrite flush_nonempty by assumption. discriminate.
    + apply IH. destruct cur; discriminate.
Qed.

Lemma dropwhile_head p s c s' : dropwhile p s = c :: s' -> p c = false.
Proof.
  induction s as [|a s IH]; simpl; [discriminate|].
  destruct (p a) eqn:Ha; [exact IH|]. intros [= <- _]. exact Ha.
Qed.

Lemma dropwhile_snoc p s c :
  p c = false -> dropwhile p (s ++ [c]) = dropwhile p s ++ [c].
Proof.
  intros Hc. induction s as [|a s IH]; simpl.
  - rewrite Hc. reflexivity.
  - destruct (p a); [exact IH | reflexivity].
Qed.

(** On a string that does not end in whitespace, and that does not start
    with it unless a word is pending, collapsing the whitespace runs is
    joining the words with single spaces. *)
Lemma collapse_ws_join s : forall cur,
  (forall t c, s = t ++ [c] -> is_space c = false) ->
  (cur ≠ [] \/ forall c s', s = c :: s' -> is_space c = false) ->
  cur ++ collapse_ws s = join space (split_from cur s).
Proof.
  induction s as [|c s IH]; intros cur Hend Hstart.
  - cbn [collapse_ws]. rewrite app_nil_r. destruct cur; reflexivity.
  - assert (Hend' : forall t c0, s = t ++ [c0] -> is_space c0 = false).
    { intros t c0 ->. apply (Hend (c :: t)). reflexivity. }
    cbn [collapse_ws]. destruct (is_space c) eqn:Hc.
    + assert (Hcur : cur ≠ []).
      { destruct Hstart as [H|H]; [exact H|].
        specialize (H c s eq_refl). congruence. }
      rewrite split_from_space, flush_nonempty by assumption.
      destruct s as [|c' s'].
      { specialize (Hend [] c eq_refl). congruence. }
      destruct (is_space c') eqn:Hc'.
      * rewrite (IH cur) by auto.
        rewrite !(split_from_space _ c') by assumption.
        rewrite flush_nonempty by assumption. reflexivity.
      * cbn [app]. rewrite join_cons.
        2:{ simpl. rewrite Hc'. apply split_from_nonempty. discriminate. }
        change (space ++ ?rest) with (32%N :: rest).
        do 2 f_equal. apply (IH [] Hend').
        right. intros c0 s0 [= <- <-]. exact Hc'.
    + simpl split_from. rewrite Hc.
      rewrite <- (IH (cur ++ [c])); [rewrite <- app_assoc; reflexivity | auto |].
      left. destruct cur; discriminate.
Qed.

(** Whitespace normalization is [" ".join(s.split())]. *)
Lemma normalize_ws_join s : normalize_ws s = join space (split s).
Proof.
  unfold normalize_ws. rewrite <- (split_strip s).
  apply (collapse_ws_join (strip s) []).
  - unfold strip, rstrip. intros t c Heq.
    apply (f_equal (@rev N)) in Heq.
    rewrite rev_involutive, rev_app_distr in Heq. simpl in Heq.
    exact (dropwhile_head _ _ _ _ Heq).
  - right. unfold strip, lstrip, rstrip. intros c s'.
    destruct (dropwhile is_space s) as [|a x] eqn:Hx; [discriminate|].
    pose proof (dropwhile_head _ _ _ _ Hx) as Ha.
    simpl rev. rewrite dropwhile_snoc by assumption.
    rewrite rev_app_distr. simpl. intros [= <- _]. exact Ha.
Qed.

(** A normalized text is left alone by normalization. *)
Lemma normalize_ws_idem s : normalize_ws (normalize_ws s) = normalize_ws s.
Proof.
  rewrite (normalize_ws_join (normalize_ws s)), split_normalize_ws.
  symmetry. apply normalize_ws_join.
Qed.

End SplitJoin.

(** ** The chunking loop *)

Section ChunkLoop.

Implicit Types (words : list pystr) (start : Z).

(** With non-negative bounds a Python slice is a [take] of a [drop]. *)
Lemma py_slice_words_at {A} (l : list A) (lo size : Z) :
  0 <= lo -> 0 <= size ->
  py_slice l lo (lo + size) = take (Z.to_nat size) (drop (Z.to_nat lo) l).
Proof.
  intros Hlo Hsize. unfold py_slice, slice_index.
  destruct (Z.ltb_spec lo 0) as [?|_]; [lia|].
  destruct (Z.ltb_spec (lo + size) 0) as [?|_]; [lia|].
  destruct (Z.le_gt_cases lo (Z.of_nat (length l))) as [Hle|Hgt].
  - rewrite (Z.min_l lo) by assumption.
    destruct (Z.le_gt_cases (lo + size) (Z.of_nat (length l))) as [Hle'|Hgt'].
    + rewrite Z.min_l by assumption. f_equal. lia.
    + rewrite Z.min_r by lia.
      rewrite !take_ge; [reflexivity | |]; rewrite length_drop; lia.
  - rewrite (Z.min_r lo) by lia. rewrite Z.min_r by lia.
    rewrite !drop_ge by lia. rewrite !take_nil. reflexivity.
Qed.

(** More fuel never changes an answer. *)
Lemma chunk_loop_mono words cs ov : forall fuel fuel' start acc r,
  chunk_loop fuel words cs ov start acc = Return r ->
  (fuel <= fuel')%nat ->
  chunk_loop fuel' words cs ov start acc = Return r.
Proof.
  induction fuel as [|fuel IH]; intros fuel' start acc r H Hle;
    [discriminate|].
  destruct fuel' as [|fuel']; [lia|]. simpl in *.
  destruct (start <? Z.of_nat (length words)); [|assumption].
  apply IH; [assumption | lia].
Qed.

(** The loop never raises. *)
Lemma chunk_loop_no_raise words cs ov : forall fuel start acc,
  chunk_loop fuel words cs ov start acc ≠ Raise.
Proof.
  induction fuel as [|fuel IH]; intros start acc; simpl; [discriminate|].
  destruct (start <? Z.of_nat (length words)); [apply IH | discriminate].
Qed.

(** With a stride that is not positive, the loop never leaves a state in
    which its condition holds. *)
Lemma chunk_loop_stuck words cs ov : cs - ov <= 0 ->
  forall fuel start acc, start < Z.of_nat (length words) ->
  chunk_loop fuel words cs ov start acc = Timeout.
Proof.
  intros Hstride. induction fuel as [|fuel IH]; intros start acc Hlt;
    [reflexivity|].
  simpl. destruct (Z.ltb_spec start (Z.of_nat (length words))); [|lia].
  apply IH. lia.
Qed.

(** With a positive stride the loop runs [m] times, where [m] strides are
    the first to reach the end of the words, and appends the [m] slices. *)
Lemma chunk_loop_run words cs ov : 1 <= cs - ov ->
  forall (m fuel : nat) start acc,
  (m < fuel)%nat ->
  Z.of_nat (length words) <= start + Z.of_nat m * (cs - ov) ->
  ((0 < m)%nat -> start + (Z.of_nat m - 1) * (cs - ov) < Z.of_nat (length words)) ->
  chunk_loop fuel words cs ov start acc =
  Return (acc ++ ((fun j : nat =>
                     let lo := start + Z.of_nat j * (cs - ov) in
                     join space (py_slice words lo (lo + cs)))
                   <$> seq 0 m)).
Proof.
  intros Hstride. induction m as [|m IH]; intros fuel start acc Hfuel Hend Hlast;
    (destruct fuel as [|fuel]; [lia|]); simpl chunk_loop.
  - destruct (Z.ltb_spec start (Z.of_nat (length words))); [lia|].
    simpl. rewrite app_nil_r. reflexivity.
  - destruct (Z.ltb_spec start (Z.of_nat (length words))); [|nia].
    rewrite IH; [| lia | lia | intros; nia].
    rewrite <- app_assoc. f_equal. f_equal.
    cbn [seq fmap list_fmap app]. f_equal.
    + rewrite Z.mul_0_l, Z.add_0_r. reflexivity.
    + rewrite <- fmap_S_seq, <- list_fmap_compose.
      apply list_fmap_ext. intros _ j _. cbn [compose]. cbv zeta.
      replace (start + (cs - ov) + Z.of_nat j * (cs - ov))
        with (start + Z.of_nat (S j) * (cs - ov)) by lia.
      reflexivity.
Qed.

Lemma num_chunks_spec (n stride : Z) : 0 <= n -> 1 <= stride ->
  let m := Z.of_nat (num_chunks n stride) in
  n <= m * stride /\ (0 < m -> (m - 1) * stride < n) /\ m <= n.
Proof.
  intros Hn Hs. cbv zeta. unfold num_chunks.
  pose proof (Z.div_mod (n + stride - 1) stride ltac:(lia)) as Hdm.
  pose proof (Z.mod_pos_bound (n + stride - 1) stride ltac:(lia)) as Hr.
  assert (Hq : 0 <= (n + stride - 1) / stride)
    by (apply Z.div_pos; lia).
  rewrite Z2Nat.id by assumption.
  set (q := (n + stride - 1) / stride) in *.
  set (r := (n + stride - 1) mod stride) in *.
  repeat split; nia.
Qed.

(** The chunks of a text for a configuration with positive window and
    stride, in closed form. *)
Lemma chunk_text_windows text cs ov fuel :
  0 <= cs -> 1 <= cs - ov ->
  (length (split text) < fuel)%nat ->
  chunk_text fuel text cs ov =
  Return (windows (split text) (Z.to_nat cs) (Z.to_nat (cs - ov))).
Proof.
  intros Hcs Hstride Hfuel. unfold chunk_text.
  destruct (num_chunks_spec (Z.of_nat (length (split text))) (cs - ov))
    as (Hend & Hlast & Hle); [lia | assumption |].
  rewrite (chunk_loop_run _ _ _ Hstride
             (num_chunks (Z.of_nat (length (split text))) (cs - ov)));
    [| lia | lia | intros; apply Hlast; lia].
  simpl app. f_equal. unfold windows, window.
  rewrite Z2Nat.id by lia.
  apply list_fmap_ext. intros _ k _. cbv zeta.
  rewrite py_slice_words_at by nia. unfold words_at.
  do 3 f_equal. rewrite Z.add_0_l, Z2Nat.inj_mul, Nat2Z.id by lia.
  reflexivity.
Qed.

End ChunkLoop.

(** ** Properties of [chunk_text] *)

Section ChunkText.

Implicit Types (text : pystr) (words : list pystr).

Lemma length_windows words size stride :
  length (windows words size stride)
  = num_chunks (Z.of_nat (length words)) (Z.of_nat stride).
Proof. unfold windows. rewrite length_fmap, length_seq. reflexivity. Qed.

Lemma lookup_windows words size stride (k : nat) :
  (k < length (windows words size stride))%nat ->
  windows words size stride !! k = Some (window words size stride k).
Proof.
  rewrite length_windows. intros Hk. unfold windows.
  rewrite list_lookup_fmap, lookup_seq_lt by assumption. reflexivity.
Qed.

Lemma words_at_lookup words (lo size j : nat) :
  (j < size)%nat -> words_at words lo size !! j = words !! (lo + j)%nat.
Proof.
  intros Hj. unfold words_at. rewrite lookup_take_lt by assumption.
  apply lookup_drop.
Qed.

Lemma words_at_words words lo size :
  Forall is_word words -> Forall is_word (words_at words lo size).
Proof. intros H. unfold words_at. apply Forall_take, Forall_drop, H. Qed.

(** A window inside the words is not empty. *)
Lemma words_at_nonempty words (lo size : nat) :
  (lo < length words)%nat -> (0 < size)%nat -> words_at words lo size ≠ [].
Proof.
  intros Hlo Hsize Hnil. apply (f_equal length) in Hnil.
  unfold words_at in Hnil. rewrite length_take, length_drop in Hnil.
  simpl in Hnil. lia.
Qed.

(** Every window starts inside the words. *)
Lemma window_starts_inside words size (stride k : nat) :
  (1 <= stride)%nat -> (k < length (windows words size stride))%nat ->
  (k * stride < length words)%nat.
Proof.
  rewrite length_windows. intros Hs Hk.
  destruct (num_chunks_spec (Z.of_nat (length words)) (Z.of_nat stride))
    as (_ & Hlast & _); [lia | lia |]. nia.
Qed.

(** C1 (amended). With [overlap >= chunk_size] the function raises no error,
    [InvalidConfiguration] or other: it has no validation. On a text with no
    words it returns the empty chunk sequence; on a text with at least one
    word it returns no chunk sequence, because the loop does not end. *)
Theorem chunk_text_nonpositive_stride text chunk_size overlap :
  overlap >= chunk_size ->
  (forall fuel, chunk_text fuel text chunk_size overlap ≠ Raise)
  /\ (split text = [] ->
      forall fuel, (0 < fuel)%nat ->
      chunk_text fuel text chunk_size overlap = Return [])
  /\ (split text ≠ [] ->
      never_returns (fun fuel => chunk_text fuel text chunk_size overlap)).
Proof.
  intros Hov. unfold chunk_text. repeat split.
  - intros fuel. apply chunk_loop_no_raise.
  - intros Hnil fuel Hfuel. rewrite Hnil.
    destruct fuel; [lia | reflexivity].
  - intros Hne fuel. apply chunk_loop_stuck; [lia|].
    destruct (split text); [congruence | simpl; lia].
Qed.

Lemma chunk_text_nonpositive_stride_witness :
  chunk_text 1 (str "  ") 500 500 = Return []
  /\ never_returns (fun fuel => chunk_text fuel (str "a b") 1 2).
Proof.
  split.
  - apply (chunk_text_nonpositive_stride (str "  ") 500 500);
      [lia | reflexivity | lia].
  - apply (chunk_text_nonpositive_stride (str "a b") 1 2);
      [lia | vm_compute; discriminate].
Defined.

(** C1 as stated fails: with [overlap = chunk_size] and a text without words
    the function returns a chunk sequence (the empty one) instead of
    failing, and with a text that has a word it loops. *)
Lemma chunk_text_invalid_config_counterexample :
  chunk_text 1 (str "") 1000 1000 = Return []
  /\ never_returns (fun fuel => chunk_text fuel (str "a") 1000 1000).
Proof.
  split; [reflexivity|].
  intros fuel. apply chunk_loop_stuck; [lia | vm_compute; reflexivity].
Qed.

(** C3. For a text with at least one word and a valid configuration, the
    function returns the windows in order: chunk [k] is the single-space
    join of exactly the words at indices [k*stride, k*stride+window_size)
    (cut at the end of the text). Every word index lies in some chunk, and
    chunk [k+1] starts no later than where chunk [k] ends. *)
Theorem chunk_text_windows_cover text window_size overlap :
  valid_config window_size overlap -> split text ≠ [] ->
  let words := split text in
  let size := Z.to_nat window_size in
  let stride := Z.to_nat (window_size - overlap) in
  exists chunks,
    (forall fuel, (length words < fuel)%nat ->
       chunk_text fuel text window_size overlap = Return chunks)
    /\ (forall k, (k < length chunks)%nat ->
          chunks !! k = Some (join space (words_at words (k * stride) size))
          /\ split (join space (words_at words (k * stride) size))
             = words_at words (k * stride) size
          /\ forall j, (j < size)%nat ->
               words_at words (k * stride) size !! j
               = words !! (k * stride + j)%nat)
    /\ (forall i, (i < length words)%nat ->
          exists k, (k < length chunks)%nat
                    /\ (k * stride <= i < k * stride + size)%nat
                    /\ words_at words (k * stride) size !! (i - k * stride)%nat
                       = words !! i)
    /\ (forall k, (S k * stride <= k * stride + size)%nat).
Proof.
  intros (Hsize & Hov0 & Hov) Hne words size stride.
  exists (windows words size stride). repeat split.
  - intros fuel Hfuel. apply chunk_text_windows; [lia | lia | assumption].
  - apply lookup_windows. assumption.
  - apply split_join, words_at_words, split_words.
  - intros j Hj. apply words_at_lookup. assumption.
  - intros i Hi. rewrite length_windows.
    destruct (num_chunks_spec (Z.of_nat (length words)) (Z.of_nat stride))
      as (Hend & _ & _); [lia | lia |].
    exists (i / stride)%nat.
    assert (Hs : (0 < stride)%nat) by lia.
    pose proof (Nat.div_mod_eq i stride) as Hdm.
    pose proof (Nat.mod_upper_bound i stride ltac:(lia)) as Hr.
    assert (Hlo : (i / stride * stride <= i)%nat) by nia.
    assert (Hhi : (i < i / stride * stride + size)%nat)
      by (subst size stride; nia).
    repeat split; [nia | exact Hlo | exact Hhi |].
    rewrite words_at_lookup by lia. f_equal. lia.
  - intros k. subst size stride. simpl. lia.
Qed.

Lemma chunk_text_windows_cover_witness :
  chunk_text 4 (str "a b c") 2 1 = Return [str "a b"; str "b c"; str "c"].
Proof.
  destruct (chunk_text_windows_cover (str "a b c") 2 1) as (chunks & Hrun & _).
  - unfold valid_config. lia.
  - vm_compute. discriminate.
  - specialize (Hrun 4%nat ltac:(vm_compute; lia)).
    rewrite Hrun. vm_compute in Hrun. rewrite <- Hrun. reflexivity.
Defined.

(** C7 (amended). For a valid configuration the function returns no chunk
    when the text has no words, and exactly one chunk precisely when the
    word count is at least one and at most the stride
    [window_size - overlap]. In general the number of chunks is the word
    count divided by the stride, rounded up. *)
Theorem chunk_text_chunk_count text window_size overlap :
  valid_config window_size overlap ->
  let n := Z.of_nat (length (split text)) in
  let stride := window_size - overlap in
  exists chunks,
    (forall fuel, (length (split text) < fuel)%nat ->
       chunk_text fuel text window_size overlap = Return chunks)
    /\ (n = 0 -> chunks = [])
    /\ (length chunks = 1%nat <-> 1 <= n <= stride)
    /\ Z.of_nat (length chunks) = (n + stride - 1) / stride.
Proof.
  intros (Hsize & Hov0 & Hov) n stride.
  exists (windows (split text) (Z.to_nat window_size) (Z.to_nat stride)).
  destruct (num_chunks_spec n stride) as (Hend & Hlast & Hle);
    [lia | lia |].
  assert (Hlen : length (windows (split text) (Z.to_nat window_size)
                           (Z.to_nat stride))
                 = num_chunks n stride).
  { rewrite length_windows, Z2Nat.id by lia. reflexivity. }
  split; [| split; [| split]].
  - intros fuel Hfuel. apply chunk_text_windows; [lia | lia | assumption].
  - intros Hn. apply length_zero_iff_nil. rewrite Hlen. lia.
  - rewrite Hlen. split; [intros Hone | intros [Hlo Hhi]]; nia.
  - rewrite Hlen. unfold num_chunks. apply Z2Nat.id, Z.div_pos; lia.
Qed.

Lemma chunk_text_chunk_count_witness :
  chunk_text 3 (str "a b") 3 1 = Return [str "a b"].
Proof.
  destruct (chunk_text_chunk_count (str "a b") 3 1) as (chunks & Hrun & _).
  - unfold valid_config. lia.
  - specialize (Hrun 3%nat ltac:(vm_compute; lia)).
    rewrite Hrun. vm_compute in Hrun. rewrite <- Hrun. reflexivity.
Defined.

(** C7 as stated fails: two words, a window of three and an overlap of two
    form a valid configuration with fewer words than the window, and the
    function returns two chunks. *)
Lemma chunk_text_short_input_counterexample :
  valid_config 3 2
  /\ word_count (str "a b") < 3
  /\ chunk_text 3 (str "a b") 3 2 = Return [str "a b"; str "b"].
Proof.
  repeat split; try (unfold valid_config; lia); vm_compute; reflexivity.
Qed.

(** The words alone determine the chunks, so whitespace normalization of the
    text changes nothing, for any configuration and fuel. *)
Lemma chunk_text_normalize_ws fuel text chunk_size overlap :
  chunk_text fuel (normalize_ws text) chunk_size overlap
  = chunk_text fuel text chunk_size overlap.
Proof. unfold chunk_text. rewrite split_normalize_ws. reflexivity. Qed.

(** C10. For a valid configuration, chunking a text and chunking its
    whitespace-normalized form return the same chunk sequence, and every
    chunk is a non-empty sequence of words joined by single spaces, itself
    in whitespace-normalized form. *)
Theorem chunk_text_whitespace_invariant text window_size overlap :
  valid_config window_size overlap ->
  exists chunks,
    (forall fuel, (length (split text) < fuel)%nat ->
       chunk_text fuel text window_size overlap = Return chunks
       /\ chunk_text fuel (normalize_ws text) window_size overlap
          = Return chunks)
    /\ Forall (fun chunk =>
                 (exists ws, ws ≠ [] /\ Forall is_word ws
                             /\ chunk = join space ws)
                 /\ normalize_ws chunk = chunk) chunks.
Proof.
  intros (Hsize & Hov0 & Hov).
  exists (windows (split text) (Z.to_nat window_size)
            (Z.to_nat (window_size - overlap))).
  split.
  - intros fuel Hfuel. rewrite chunk_text_normalize_ws.
    split; apply chunk_text_windows; lia.
  - apply Forall_lookup. intros k chunk Hk.
    assert (Hlt : (k < length (windows (split text) (Z.to_nat window_size)
                                 (Z.to_nat (window_size - overlap))))%nat)
      by (apply lookup_lt_is_Some; eauto).
    rewrite lookup_windows in Hk by assumption. injection Hk as <-.
    assert (Hws : Forall is_word
                    (words_at (split text)
                       (k * Z.to_nat (window_size - overlap))
                       (Z.to_nat window_size)))
      by apply words_at_words, split_words.
    split.
    + eexists. split; [| split; [exact Hws | reflexivity]].
      apply words_at_nonempty; [| lia].
      eapply window_starts_inside; [| exact Hlt]. lia.
    + unfold window. rewrite normalize_ws_join, split_join by exact Hws.
      reflexivity.
Qed.

Lemma chunk_text_whitespace_invariant_witness :
  chunk_text 4 (str " a   b c ") 2 1 = chunk_text 4 (str "a b c") 2 1.
Proof.
  destruct (chunk_text_whitespace_invariant (str " a   b c ") 2 1)
    as (chunks & Hrun & _).
  - unfold valid_config. lia.
  - destruct (Hrun 4%nat ltac:(vm_compute; lia)) as [H1 H2].
    rewrite H1, <- H2. reflexivity.
Defined.

End ChunkText.

(** ** Properties of [summarize_large_text] *)

Section SummarizeLargeText.

Variable summarizer : pystr -> option pystr.

Implicit Types (text : pystr) (chunks : list pystr).

(** The loop appends the summaries of the chunks on which the summarizer
    succeeds, in chunk order. *)
Lemma summarize_chunks_omap chunks : forall summaries,
  summarize_chunks summarizer chunks summaries
  = summaries ++ omap summarizer chunks.
Proof.
  induction chunks as [|chunk chunks IH]; intros summaries; simpl.
  - rewrite app_nil_r. reflexivity.
  - destruct (summarizer chunk) as [summary|]; rewrite IH; [|reflexivity].
    rewrite <- app_assoc. reflexivity.
Qed.

(** A returned round count is at least one. *)
Lemma summarize_large_text_rounds_pos mcw : forall fuel text r n,
  summarize_large_text summarizer fuel text mcw = Return (r, n) ->
  (1 <= n)%nat.
Proof.
  destruct fuel as [|fuel]; intros text r n H; [discriminate|].
  cbn [summarize_large_text] in H.
  destruct (chunk_text (S fuel) text mcw default_overlap) as [chunks| |];
    try discriminate.
  destruct (word_count _ >? mcw).
  - destruct (summarize_large_text summarizer fuel _ mcw) as [[? ?]| |];
      try discriminate.
    injection H as _ <-. lia.
  - injection H as _ <-. lia.
Qed.

(** More fuel never changes an answer. *)
Lemma summarize_large_text_mono mcw : forall fuel fuel' text x,
  summarize_large_text summarizer fuel text mcw = Return x ->
  (fuel <= fuel')%nat ->
  summarize_large_text summarizer fuel' text mcw = Return x.
Proof.
  induction fuel as [|fuel IH]; intros fuel' text x H Hle; [discriminate|].
  destruct fuel' as [|fuel']; [lia|].
  cbn [summarize_large_text] in *.
  destruct (chunk_text (S fuel) text mcw default_overlap) as [chunks| |] eqn:Hc;
    try discriminate.
  unfold chunk_text in *.
  rewrite (chunk_loop_mono _ _ _ _ (S fuel') _ _ _ Hc) by lia.
  destruct (word_count _ >? mcw); [|assumption].
  destruct (summarize_large_text summarizer fuel _ mcw) as [[s k]| |] eqn:Hrec;
    try discriminate.
  rewrite (IH fuel' _ _ Hrec) by lia. assumption.
Qed.

(** One call, for a window larger than the fixed overlap: chunk, summarize,
    join, and recurse on the combined summary when it is too long. *)
Lemma summarize_large_text_step mcw fuel text :
  default_overlap < mcw -> (length (split text) <= fuel)%nat ->
  summarize_large_text summarizer (S fuel) text mcw
  = if word_count (round_of summarizer mcw text) >? mcw then
      match summarize_large_text summarizer fuel
              (round_of summarizer mcw text) mcw with
      | Return (summary, rounds) => Return (summary, S rounds)
      | Raise => Raise
      | Timeout => Timeout
      end
    else Return (round_of summarizer mcw text, 1%nat).
Proof.
  intros Hmcw Hfuel. cbn [summarize_large_text].
  rewrite chunk_text_windows by (unfold default_overlap in *; lia).
  rewrite summarize_chunks_omap. reflexivity.
Qed.

End SummarizeLargeText.

Section SummarizeClaims.

Implicit Types (summarizer : pystr -> option pystr) (text : pystr).

Lemma omap_identity_summarizer (chunks : list pystr) :
  omap identity_summarizer chunks = chunks.
Proof.
  induction chunks as [|chunk chunks IH]; [reflexivity|].
  cbn [omap list_omap identity_summarizer]. f_equal. exact IH.
Qed.

(** Whatever the fuel, chunking with a positive window and stride either is
    still running or has returned the windows. *)
Lemma chunk_text_cases fuel text cs ov :
  0 <= cs -> 1 <= cs - ov ->
  chunk_text fuel text cs ov = Timeout
  \/ chunk_text fuel text cs ov
     = Return (windows (split text) (Z.to_nat cs) (Z.to_nat (cs - ov))).
Proof.
  intros Hcs Hstride.
  destruct (chunk_text fuel text cs ov) as [chunks| |] eqn:Hc;
    [right | exfalso; revert Hc; apply chunk_loop_no_raise | left; reflexivity].
  unfold chunk_text in Hc.
  apply (chunk_loop_mono _ _ _ _ (S (Nat.max fuel (length (split text)))))
    in Hc; [|lia].
  fold (chunk_text (S (Nat.max fuel (length (split text)))) text cs ov) in Hc.
  rewrite chunk_text_windows in Hc by lia. congruence.
Qed.

(** The words of one identity round are the words of all its windows. *)
Lemma round_of_identity_words mcw text :
  default_overlap < mcw ->
  split (round_of identity_summarizer mcw text)
  = concat ((fun k : nat =>
               words_at (split text)
                 (k * Z.to_nat (mcw - default_overlap)) (Z.to_nat mcw))
            <$> seq 0 (num_chunks (Z.of_nat (length (split text)))
                         (mcw - default_overlap))).
Proof.
  intros Hmcw. unfold round_of. unfold default_overlap in *.
  rewrite omap_identity_summarizer.
  unfold windows. rewrite Z2Nat.id by lia.
  match goal with |- split (join space (?f <$> ?ks)) = concat (?g <$> _) =>
    replace (f <$> ks) with (join space <$> (g <$> ks))
      by (rewrite <- list_fmap_compose; reflexivity)
  end.
  rewrite join_join.
  - apply split_join. apply Forall_concat, Forall_fmap, Forall_forall.
    intros k _. apply words_at_words, split_words.
  - apply Forall_fmap, Forall_forall. intros k Hk.
    apply elem_of_seq in Hk.
    destruct (num_chunks_spec (Z.of_nat (length (split text))) (mcw - 200))
      as (_ & Hlast & _); [lia | lia |].
    apply words_at_nonempty; nia.
Qed.

(** An identity round over a text longer than the window makes it longer
    still: the first window is full and the second is not empty. *)
Lemma round_of_identity_grows mcw text :
  default_overlap < mcw -> word_count text > mcw ->
  word_count (round_of identity_summarizer mcw text) > mcw.
Proof.
  intros Hmcw Hlong. unfold word_count in *.
  rewrite round_of_identity_words by assumption.
  unfold default_overlap in *.
  destruct (num_chunks_spec (Z.of_nat (length (split text))) (mcw - 200))
    as (Hend & _ & _); [lia | lia |].
  destruct (num_chunks (Z.of_nat (length (split text))) (mcw - 200))
    as [|[|m]]; [nia | nia |].
  cbn [seq fmap list_fmap concat]. rewrite !length_app.
  unfold words_at. rewrite !length_take, !length_drop. lia.
Qed.

(** With the identity summarizer a text longer than the window is never
    reduced: the recursion does not end. *)
Lemma summarize_identity_long mcw :
  default_overlap < mcw ->
  forall fuel text, word_count text > mcw ->
  summarize_large_text identity_summarizer fuel text mcw = Timeout.
Proof.
  intros Hmcw. induction fuel as [|fuel IH]; intros text Hlong;
    [reflexivity|].
  cbn [summarize_large_text].
  destruct (chunk_text_cases (S fuel) text mcw default_overlap) as [Hc|Hc];
    [unfold default_overlap in *; lia | unfold default_overlap in *; lia | |];
    rewrite Hc; [reflexivity|].
  rewrite summarize_chunks_omap. simpl app.
  fold (round_of identity_summarizer mcw text).
  pose proof (round_of_identity_grows mcw text Hmcw Hlong) as Hgrow.
  destruct (Z.gtb_spec (word_count (round_of identity_summarizer mcw text)) mcw);
    [|lia].
  rewrite IH by assumption. reflexivity.
Qed.

End SummarizeClaims.

Section RecursionLimitTheorems.

Variable summarizer : nat -> pystr -> option pystr.
Variable mcw : Z.
Hypothesis Hmcw : default_overlap < mcw.

Implicit Types (text : pystr) (frames fuel : nat).

(** More fuel never changes an answer. *)
Lemma summarize_large_text_frames_mono frames : forall fuel fuel' text o,
  summarize_large_text_frames summarizer frames fuel text mcw = o ->
  o ≠ Timeout -> (fuel <= fuel')%nat ->
  summarize_large_text_frames summarizer frames fuel' text mcw = o.
Proof.
  induction frames as [|frames IH]; intros fuel fuel' text o H Ho Hle;
    [exact H|].
  cbn [summarize_large_text_frames] in *.
  destruct (chunk_text fuel text mcw default_overlap) as [chunks| |] eqn:Hc;
    [| exfalso; revert Hc; apply chunk_loop_no_raise | congruence].
  unfold chunk_text in *.
  rewrite (chunk_loop_mono _ _ _ _ fuel' _ _ _ Hc) by lia.
  destruct (word_count _ >? mcw); [|exact H].
  destruct (summarize_large_text_frames summarizer frames fuel _ mcw)
    as [[s k]| |] eqn:Hrec; [| | congruence].
  - rewrite (IH _ fuel' _ _ Hrec) by (discriminate || lia). exact H.
  - rewrite (IH _ fuel' _ _ Hrec) by (discriminate || lia). exact H.
Qed.

(** With fuel for its chunking loops, a call is as [summarize_within]
    says. *)
Lemma summarize_large_text_frames_enough frames : forall text,
  exists fuel0, forall fuel, (fuel0 <= fuel)%nat ->
    summarize_large_text_frames summarizer frames fuel text mcw
    = summarize_within summarizer mcw frames text.
Proof.
  induction frames as [|frames IH]; intros text.
  - exists 0%nat. reflexivity.
  - destruct (IH (round_of (summarizer (S frames)) mcw text)) as [fuel0 Hrec].
    exists (Nat.max fuel0 (S (length (split text)))). intros fuel Hfuel.
    cbn [summarize_large_text_frames summarize_within].
    rewrite chunk_text_windows by (unfold default_overlap in *; lia).
    rewrite summarize_chunks_omap. simpl app.
    fold (round_of (summarizer (S frames)) mcw text).
    rewrite Hrec by lia. reflexivity.
Qed.

Lemma summarize_large_text_frames_cases frames fuel text :
  summarize_large_text_frames summarizer frames fuel text mcw = Timeout
  \/ summarize_large_text_frames summarizer frames fuel text mcw
     = summarize_within summarizer mcw frames text.
Proof.
  destruct (summarize_large_text_frames summarizer frames fuel text mcw)
    as [x| |] eqn:H; [right | right | left; reflexivity].
  - destruct (summarize_large_text_frames_enough frames text) as [fuel0 H0].
    rewrite <- (H0 (Nat.max fuel fuel0)) by lia. symmetry.
    apply (summarize_large_text_frames_mono _ fuel); [exact H | discriminate | lia].
  - destruct (summarize_large_text_frames_enough frames text) as [fuel0 H0].
    rewrite <- (H0 (Nat.max fuel fuel0)) by lia. symmetry.
    apply (summarize_large_text_frames_mono _ fuel); [exact H | discriminate | lia].
Qed.

Lemma summarize_within_rounds_pos frames : forall text r n,
  summarize_within summarizer mcw frames text = Return (r, n) -> (1 <= n)%nat.
Proof.
  destruct frames as [|frames]; intros text r n H; [discriminate|].
  cbn [summarize_within] in H. destruct (word_count _ >? mcw).
  - destruct (summarize_within summarizer mcw frames _) as [[s k]| |];
      try discriminate.
    injection H as _ <-. lia.
  - injection H as _ <-. lia.
Qed.

Lemma summarize_within_returns frames : forall (n : nat) text r,
  summarize_within summarizer mcw frames text = Return (r, S n)
  <-> (S n <= frames)%nat
      /\ r = rounds_within summarizer mcw frames (S n) text
      /\ word_count r <= mcw
      /\ forall j : nat, (1 <= j <= n)%nat ->
           word_count (rounds_within summarizer mcw frames j text) > mcw.
Proof.
  induction frames as [|frames IH]; intros n text r.
  - split; [discriminate | intros [H _]; lia].
  - cbn [summarize_within rounds_within Nat.pred].
    set (combined := round_of (summarizer (S frames)) mcw text).
    destruct (Z.gtb_spec (word_count combined) mcw) as [Hgt|Hle].
    + destruct n as [|n].
      * split.
        -- destruct (summarize_within summarizer mcw frames combined)
             as [[s k]| |] eqn:Hrec; try discriminate.
           apply summarize_within_rounds_pos in Hrec. intros [= _ Hk]. lia.
        -- intros (_ & -> & Hr & _). cbn [rounds_within] in Hr. lia.
      * specialize (IH n combined r). split.
        -- destruct (summarize_within summarizer mcw frames combined)
             as [[s k]| |] eqn:Hrec; try discriminate.
           intros [= -> ->]. destruct (proj1 IH eq_refl) as (Hn & Hr & Hw & Hall).
           split; [lia|]. split; [exact Hr|]. split; [exact Hw|].
           intros [|[|j]] Hj;
             [lia | cbn [rounds_within Nat.pred]; fold combined; lia |].
           cbn [rounds_within Nat.pred]. fold combined. apply (Hall (S j)). lia.
        -- intros (Hn & Hr & Hw & Hall). rewrite (proj2 IH); [reflexivity|].
           split; [lia|]. split; [exact Hr|]. split; [exact Hw|].
           intros j Hj. apply (Hall (S j)). lia.
    + split.
      * intros [= <- <-]. split; [lia|]. split; [reflexivity|].
        split; [exact Hle | intros j Hj; lia].
      * intros (_ & -> & _ & Hall). destruct n as [|n]; [reflexivity|].
        specialize (Hall 1%nat ltac:(lia)).
        cbn [rounds_within Nat.pred] in Hall. fold combined in Hall. lia.
Qed.

Lemma summarize_within_raises frames : forall text,
  summarize_within summarizer mcw frames text = Raise
  <-> forall j : nat, (1 <= j <= frames)%nat ->
        word_count (rounds_within summarizer mcw frames j text) > mcw.
Proof.
  induction frames as [|frames IH]; intros text.
  - split; [intros _ j Hj; lia | reflexivity].
  - cbn [summarize_within].
    set (combined := round_of (summarizer (S frames)) mcw text).
    destruct (Z.gtb_spec (word_count combined) mcw) as [Hgt|Hle].
    + specialize (IH combined). split.
      * destruct (summarize_within summarizer mcw frames combined)
          as [[s k]| |]; try discriminate.
        intros _ [|[|j]] Hj; [lia | cbn [rounds_within]; fold combined; lia |].
        cbn [rounds_within Nat.pred]. fold combined.
        apply (proj1 IH eq_refl (S j)). lia.
      * intros Hall. rewrite (proj2 IH); [reflexivity|].
        intros j Hj. apply (Hall (S j)). lia.
    + split; [discriminate|]. intros Hall.
      specialize (Hall 1%nat ltac:(lia)).
      cbn [rounds_within] in Hall. fold combined in Hall. lia.
Qed.

(** C2 (amended). The function has no round cap of its own and no
    recursion-limit condition that would hand back an intermediate summary;
    only the interpreter's recursion limit bounds the rounds. For a window
    larger than the fixed overlap and a call with [frames] frames left:
    it returns after exactly [n + 1] rounds precisely when [n + 1] rounds
    fit in the frames and the combined summary of round [n + 1] is the
    first one with at most [max_chunk_words] words, and it returns that
    combined summary; and it raises precisely when every round that fits in
    the frames gives a longer combined summary. *)
Theorem summarize_large_text_frames_rounds frames text :
  (forall (n : nat) r,
     returns
       (fun fuel => summarize_large_text_frames summarizer frames fuel text mcw)
       (r, S n)
     <-> (S n <= frames)%nat
         /\ r = rounds_within summarizer mcw frames (S n) text
         /\ word_count r <= mcw
         /\ forall j : nat, (1 <= j <= n)%nat ->
              word_count (rounds_within summarizer mcw frames j text) > mcw)
  /\ ((exists fuel,
         summarize_large_text_frames summarizer frames fuel text mcw = Raise)
      <-> forall j : nat, (1 <= j <= frames)%nat ->
            word_count (rounds_within summarizer mcw frames j text) > mcw).
Proof.
  split.
  - intros n r. rewrite <- summarize_within_returns. split.
    + intros [fuel H].
      destruct (summarize_large_text_frames_cases frames fuel text); congruence.
    + intros H.
      destruct (summarize_large_text_frames_enough frames text) as [fuel0 H0].
      exists fuel0. rewrite H0 by lia. exact H.
  - rewrite <- summarize_within_raises. split.
    + intros [fuel H].
      destruct (summarize_large_text_frames_cases frames fuel text); congruence.
    + intros H.
      destruct (summarize_large_text_frames_enough frames text) as [fuel0 H0].
      exists fuel0. rewrite H0 by lia. exact H.
Qed.

End RecursionLimitTheorems.

(** The two models agree where both apply: a summarizer that does not look
    at the frames, and frames for all the rounds. *)
Lemma summarize_large_text_frames_agrees
    (summarizer : pystr -> option pystr) mcw : forall fuel text r k,
  summarize_large_text summarizer fuel text mcw = Return (r, k) ->
  forall frames, (k <= frames)%nat ->
  summarize_large_text_frames (fun _ => summarizer) frames fuel text mcw
  = Return (r, k).
Proof.
  induction fuel as [|fuel IH]; intros text r k H frames Hk; [discriminate|].
  pose proof (summarize_large_text_rounds_pos _ _ _ _ _ _ H) as Hpos.
  destruct frames as [|frames]; [lia|].
  cbn [summarize_large_text summarize_large_text_frames] in *.
  destruct (chunk_text (S fuel) text mcw default_overlap) as [chunks| |];
    try discriminate.
  destruct (word_count _ >? mcw); [|exact H].
  destruct (summarize_large_text summarizer fuel _ mcw) as [[s j]| |] eqn:Hrec;
    try discriminate.
  injection H as <- <-.
  specialize (IH _ _ _ Hrec frames ltac:(lia)).
  rewrite (summarize_large_text_frames_mono _ _ frames fuel (S fuel) _ _ IH)
    by (discriminate || lia).
  reflexivity.
Qed.

(** With the identity summarizer a text longer than the window exhausts any
    number of frames. *)
Lemma summarize_within_identity_raises mcw :
  default_overlap < mcw ->
  forall frames text, word_count text > mcw ->
  summarize_within (fun _ => identity_summarizer) mcw frames text = Raise.
Proof.
  intros Hmcw. induction frames as [|frames IH]; intros text Hlong;
    [reflexivity|].
  cbn [summarize_within].
  pose proof (round_of_identity_grows mcw text Hmcw Hlong) as Hgrow.
  destruct (Z.gtb_spec (word_count (round_of identity_summarizer mcw text)) mcw);
    [|lia].
  rewrite IH by assumption. reflexivity.
Qed.

Lemma summarize_large_text_frames_rounds_witness :
  returns
    (fun fuel =>
       summarize_large_text_frames first_400_words 5 fuel
         (join space (replicate 2000 (str "w"))) 1000)
    (join space (replicate 800 (str "w")), 2%nat).
Proof.
  apply (summarize_large_text_frames_rounds first_400_words 1000 eq_refl 5
           (join space (replicate 2000 (str "w")))).
  split; [lia|]. split; [vm_compute; reflexivity|].
  split; [vm_compute; discriminate|].
  intros j Hj. assert (j = 1%nat) as -> by lia. vm_compute. reflexivity.
Defined.

(** C2 as stated fails: with the default window of 1000 words, the identity
    summarizer and a text of 1001 words, every round gives a longer text;
    whatever the number of frames, the run ends in the interpreter's
    exception, and no intermediate summary is returned. *)
Lemma summarize_large_text_limit_counterexample :
  always_raises
    (fun frames fuel =>
       summarize_large_text_frames (fun _ => identity_summarizer) frames fuel
         (join space (replicate 1001 (str "w"))) 1000).
Proof.
  intros frames.
  destruct (summarize_large_text_frames_enough
              (fun _ => identity_summarizer) 1000 eq_refl frames
              (join space (replicate 1001 (str "w")))) as [fuel0 H0].
  exists fuel0. rewrite H0 by lia.
  apply summarize_within_identity_raises; [reflexivity|].
  vm_compute. reflexivity.
Qed.

Section SkippedFailures.

Variable summarizer : nat -> pystr -> option pystr.

Implicit Types (text : pystr) (frames fuel : nat).

Lemma windows_no_words window_size stride : windows [] window_size stride = [].
Proof.
  unfold windows, num_chunks. cbn [length].
  destruct stride as [|stride]; [reflexivity|].
  rewrite Z.div_small by lia. reflexivity.
Qed.

(** Chunking ends on a window larger than the overlap, and on a text
    without words. *)
Lemma chunk_text_ends text mcw fuel :
  default_overlap < mcw \/ (split text = [] /\ 0 <= mcw) ->
  (length (split text) < fuel)%nat ->
  chunk_text fuel text mcw default_overlap
  = Return (windows (split text) (Z.to_nat mcw)
              (Z.to_nat (mcw - default_overlap))).
Proof.
  intros [Hmcw|[Hnil _]] Hfuel.
  - apply chunk_text_windows; unfold default_overlap in *; lia.
  - destruct fuel as [|fuel]; [lia|].
    unfold chunk_text. rewrite Hnil, windows_no_words. reflexivity.
Qed.

(** One call with a frame to run in: the round, then the answer or the
    recursive call. *)
Lemma summarize_large_text_frames_step frames fuel text mcw :
  default_overlap < mcw \/ (split text = [] /\ 0 <= mcw) ->
  (length (split text) < fuel)%nat ->
  summarize_large_text_frames summarizer (S frames) fuel text mcw
  = if word_count (round_of (summarizer (S frames)) mcw text) >? mcw
    then next_round
           (summarize_large_text_frames summarizer frames fuel
              (round_of (summarizer (S frames)) mcw text) mcw)
    else Return (round_of (summarizer (S frames)) mcw text, 1%nat).
Proof.
  intros Hcfg Hfuel. cbn [summarize_large_text_frames].
  rewrite chunk_text_ends by assumption.
  rewrite summarize_chunks_omap. simpl app.
  fold (round_of (summarizer (S frames)) mcw text).
  destruct (word_count _ >? mcw); [|reflexivity].
  destruct (summarize_large_text_frames summarizer frames fuel _ mcw)
    as [[s k]| |]; reflexivity.
Qed.

Lemma omap_skip {A B} (f : A -> option B) l1 x l2 :
  f x = None -> omap f (l1 ++ x :: l2) = omap f (l1 ++ l2).
Proof.
  intros Hx. rewrite !omap_app. cbn [omap list_omap]. rewrite Hx. reflexivity.
Qed.

Lemma omap_all_None {A B} (f : A -> option B) l :
  Forall (fun x => f x = None) l -> omap f l = [].
Proof.
  induction 1 as [|x l Hx _ IH]; [reflexivity|].
  cbn [omap list_omap]. rewrite Hx. exact IH.
Qed.

(** C6 (amended). Provided chunking ends ([max_chunk_words] exceeds the
    fixed overlap of 200, or the text has no words and [max_chunk_words] is
    not negative) and the call has a frame to run in:
    - when the summarizer fails on every chunk of the text, the function
      returns the empty string after one round;
    - a chunk on which the summarizer fails is skipped and the document goes
      on: the round gives the combined summary of the other chunks, which
      the function returns when it has at most [max_chunk_words] words and
      summarizes again otherwise;
    - an exception leaves the function only out of the recursive call on a
      combined summary of more than [max_chunk_words] words (the recursion
      out of frames), never out of a chunk. *)
Theorem summarize_large_text_skips_failures frames fuel text max_chunk_words :
  default_overlap < max_chunk_words
  \/ (split text = [] /\ 0 <= max_chunk_words) ->
  (length (split text) < fuel)%nat ->
  let chunks :=
    windows (split text) (Z.to_nat max_chunk_words)
      (Z.to_nat (max_chunk_words - default_overlap)) in
  let run :=
    summarize_large_text_frames summarizer (S frames) fuel text
      max_chunk_words in
  chunk_text fuel text max_chunk_words default_overlap = Return chunks
  /\ (Forall (fun chunk => summarizer (S frames) chunk = None) chunks ->
      run = Return ([], 1%nat))
  /\ (forall chunks1 chunk chunks2,
        chunks = chunks1 ++ chunk :: chunks2 ->
        summarizer (S frames) chunk = None ->
        let combined :=
          join space (omap (summarizer (S frames)) (chunks1 ++ chunks2)) in
        (word_count combined <= max_chunk_words ->
         run = Return (combined, 1%nat))
        /\ (word_count combined > max_chunk_words ->
            run = next_round
                    (summarize_large_text_frames summarizer frames fuel
                       combined max_chunk_words)))
  /\ (run = Raise ->
      let combined := round_of (summarizer (S frames)) max_chunk_words text in
      word_count combined > max_chunk_words
      /\ summarize_large_text_frames summarizer frames fuel combined
           max_chunk_words = Raise).
Proof.
  intros Hcfg Hfuel chunks run.
  pose proof (summarize_large_text_frames_step frames fuel text
                max_chunk_words Hcfg Hfuel) as Hstep.
  fold run in Hstep. unfold round_of in Hstep. fold chunks in Hstep.
  split; [apply chunk_text_ends; assumption|]. split; [|split].
  - intros Hfail. rewrite Hstep, (omap_all_None _ _ Hfail).
    destruct (Z.gtb_spec (word_count (join space [])) max_chunk_words)
      as [Hgt|_]; [|reflexivity].
    unfold word_count in Hgt. simpl in Hgt.
    unfold default_overlap in *. lia.
  - intros chunks1 chunk chunks2 Hchunks Hnone combined.
    rewrite Hchunks, (omap_skip _ _ _ _ Hnone) in Hstep. fold combined in Hstep.
    rewrite Hstep.
    destruct (Z.gtb_spec (word_count combined) max_chunk_words);
      split; intros; (reflexivity || lia).
  - intros Hraise combined. unfold combined, round_of. fold chunks.
    rewrite Hstep in Hraise.
    destruct (Z.gtb_spec
                (word_count (join space (omap (summarizer (S frames)) chunks)))
                max_chunk_words) as [Hgt|_]; [|discriminate].
    split; [lia|].
    destruct (summarize_large_text_frames summarizer frames fuel _
                max_chunk_words) as [[s k]| |]; (discriminate || reflexivity).
Qed.

End SkippedFailures.

Lemma summarize_large_text_skips_failures_witness :
  summarize_large_text_frames (fun _ => failing_summarizer) 1 4 (str "a b c")
    1000
  = Return (str "", 1%nat)
  /\ summarize_large_text_frames (fun _ => fails_on_b) 1 3 (str "a b") 201
     = Return (str "ok", 1%nat).
Proof.
  split.
  - apply (summarize_large_text_skips_failures (fun _ => failing_summarizer)
             0 4 (str "a b c") 1000).
    + left. reflexivity.
    + vm_compute. lia.
    + apply Forall_forall. reflexivity.
  - assert (Hfuel : (length (split (str "a b")) < 3)%nat)
      by (vm_compute; lia).
    pose proof (summarize_large_text_skips_failures (fun _ => fails_on_b)
                  0 3 (str "a b") 201 (or_introl eq_refl) Hfuel) as H.
    cbv zeta in H. destruct H as (_ & _ & Hskip & _).
    apply (Hskip [str "a b"] (str "b") []).
    + vm_compute. reflexivity.
    + reflexivity.
    + vm_compute. discriminate.
Defined.

Section SummarizeTheorems.

Implicit Types (summarizer : pystr -> option pystr) (text : pystr).

(** C9. Whenever the function returns, whatever the summarizer, the text
    and [max_chunk_words], the summary has at most [max_chunk_words]
    words. *)
Theorem summarize_large_text_bounded summarizer max_chunk_words :
  forall fuel text summary rounds,
    summarize_large_text summarizer fuel text max_chunk_words
    = Return (summary, rounds) ->
    word_count summary <= max_chunk_words.
Proof.
  induction fuel as [|fuel IH]; intros text summary rounds H; [discriminate|].
  cbn [summarize_large_text] in H.
  destruct (chunk_text (S fuel) text max_chunk_words default_overlap)
    as [chunks| |]; try discriminate.
  destruct (Z.gtb_spec
              (word_count (join space (summarize_chunks summarizer chunks [])))
              max_chunk_words) as [Hgt|Hle].
  - destruct (summarize_large_text summarizer fuel _ max_chunk_words)
      as [[s k]| |] eqn:Hrec; try discriminate.
    injection H as <- _. exact (IH _ _ _ Hrec).
  - injection H as <- _. exact Hle.
Qed.

Lemma summarize_large_text_bounded_witness :
  word_count (str "one two") <= 1000.
Proof.
  apply (summarize_large_text_bounded
           (fun chunk => Some (take 7 chunk)) 1000 3
           (str "one two three") (str "one two") 1%nat).
  vm_compute. reflexivity.
Defined.

(** C6 as stated fails: it quantifies over every [max_chunk_words], and
    with [max_chunk_words = 100] (below the fixed overlap of 200) and a text
    of one word the function never returns, although the summarizer fails
    on every chunk. *)
Lemma summarize_large_text_all_fail_counterexample :
  never_returns
    (fun fuel => summarize_large_text failing_summarizer fuel (str "a") 100).
Proof.
  intros [|fuel]; [reflexivity|]. cbn [summarize_large_text].
  unfold chunk_text. rewrite chunk_loop_stuck; [reflexivity | | ].
  - unfold default_overlap. lia.
  - vm_compute. reflexivity.
Qed.

(** C4 (amended). With the identity summarizer and a window larger than the
    fixed overlap, a text whose word count is at most the stride
    [max_chunk_words - 200] is returned after exactly one round in
    whitespace-normalized form (its words joined by single spaces): unchanged
    when the text is already in that form. *)
Theorem summarize_large_text_identity_short text max_chunk_words :
  default_overlap < max_chunk_words ->
  word_count text <= max_chunk_words - default_overlap ->
  forall fuel, (length (split text) < fuel)%nat ->
    summarize_large_text identity_summarizer fuel text max_chunk_words
    = Return (normalize_ws text, 1%nat)
    /\ (normalize_ws text = text ->
        summarize_large_text identity_summarizer fuel text max_chunk_words
        = Return (text, 1%nat)).
Proof.
  intros Hmcw Hshort fuel Hfuel.
  assert (Hrun : summarize_large_text identity_summarizer fuel text
                   max_chunk_words = Return (normalize_ws text, 1%nat)).
  { rewrite normalize_ws_join.
    destruct fuel as [|fuel]; [lia|].
    rewrite summarize_large_text_step by (assumption || lia).
    assert (Hround : round_of identity_summarizer max_chunk_words text
                     = join space (split text)).
    { unfold round_of. rewrite omap_identity_summarizer.
      unfold windows, word_count, default_overlap in *.
      rewrite Z2Nat.id by lia.
      destruct (num_chunks_spec (Z.of_nat (length (split text)))
                  (max_chunk_words - 200)) as (Hend & Hlast & Hle);
        [lia | lia |].
      destruct (num_chunks (Z.of_nat (length (split text)))
                  (max_chunk_words - 200)) as [|[|m]].
      - destruct (split text); [reflexivity | simpl in Hend; lia].
      - cbn [seq fmap list_fmap join]. unfold window, words_at.
        rewrite Nat.mul_0_l, drop_0, take_ge by lia. reflexivity.
      - nia. }
    rewrite Hround.
    destruct (Z.gtb_spec (word_count (join space (split text)))
                max_chunk_words) as [Hgt|_]; [|reflexivity].
    unfold word_count in *. rewrite split_join in Hgt by apply split_words.
    unfold default_overlap in *. lia. }
  split; [exact Hrun|]. intros Heq. rewrite Hrun, Heq. reflexivity.
Qed.

Lemma summarize_large_text_identity_short_witness :
  summarize_large_text identity_summarizer 4 (str "a b c") 1000
  = Return (str "a b c", 1%nat).
Proof.
  apply (summarize_large_text_identity_short (str "a b c") 1000).
  - reflexivity.
  - vm_compute. discriminate.
  - vm_compute. lia.
  - reflexivity.
Defined.

(** C4 as stated fails in two ways. A text with a whitespace run comes back
    changed; and with a window of 201 words (stride 1) a two-word text,
    shorter than the window, is cut into two overlapping chunks and comes
    back with its last word repeated. *)
Lemma summarize_large_text_identity_counterexample :
  (word_count (str "a  b") <= 1000
   /\ summarize_large_text identity_summarizer 3 (str "a  b") 1000
      = Return (str "a b", 1%nat))
  /\ (word_count (str "a b") <= 201
      /\ summarize_large_text identity_summarizer 3 (str "a b") 201
         = Return (str "a b b", 1%nat)).
Proof. repeat split; vm_compute; (reflexivity || discriminate). Qed.

End SummarizeTheorems.

(** ** Properties of [extract_legal_entities] *)

Section ExtractLegalEntities.

Implicit Types (entities : entity_index) (r : span) (t v : pystr)
  (spans : list span).

Lemma add_span_lookup entities r t :
  add_span entities r !! t
  = if decide (entity r = t)
    then Some (default ∅ (entities !! t) ∪ {[raw_value r]})
    else entities !! t.
Proof.
  unfold add_span. fold (raw_value r). rewrite lookup_alter.
  destruct (decide (entity r = t)) as [<-|Hne].
  - destruct (entities !! entity r) as [vals|] eqn:He.
    + rewrite He. reflexivity.
    + rewrite lookup_insert_eq. reflexivity.
  - destruct (entities !! entity r); [reflexivity|].
    apply lookup_insert_ne. assumption.
Qed.

(** A type is a key of the index when it was one or a span has it. *)
Lemma foldl_add_span_is_Some spans : forall entities t,
  is_Some (foldl add_span entities spans !! t)
  <-> is_Some (entities !! t) \/ exists r, r ∈ spans /\ entity r = t.
Proof.
  induction spans as [|r0 spans IH]; intros entities t; cbn [foldl].
  - split; [auto | intros [H|(r & Hr & _)]; [exact H | inversion Hr]].
  - rewrite IH, add_span_lookup. split.
    + intros [H|(r & Hr & Ht)].
      * destruct (decide (entity r0 = t)) as [Heq|Hne]; [|auto].
        right. exists r0. split; [left | exact Heq].
      * right. exists r. split; [right; exact Hr | exact Ht].
    + intros [H|(r & Hr & Ht)].
      * left. destruct (decide (entity r0 = t)); [eexists; reflexivity | exact H].
      * apply elem_of_cons in Hr as [->|Hr].
        -- left. rewrite decide_True by assumption. eexists; reflexivity.
        -- right. exists r. auto.
Qed.

(** The set of a type holds what it held and the raw values of the spans of
    that type. *)
Lemma foldl_add_span_elem spans : forall entities t v,
  v ∈ default ∅ (foldl add_span entities spans !! t)
  <-> v ∈ default ∅ (entities !! t)
      \/ exists r, r ∈ spans /\ entity r = t /\ v = raw_value r.
Proof.
  induction spans as [|r0 spans IH]; intros entities t v; cbn [foldl].
  - split; [auto | intros [H|(r & Hr & _)]; [exact H | inversion Hr]].
  - rewrite IH, add_span_lookup. split.
    + intros [H|(r & Hr & Ht & Hv)].
      * destruct (decide (entity r0 = t)) as [Heq|Hne]; [|auto].
        cbn [default from_option id] in H. apply elem_of_union in H as [H|H]; [auto|].
        apply elem_of_singleton in H. right. exists r0.
        split; [left | split; assumption].
      * right. exists r. split; [right; exact Hr | split; assumption].
    + intros [H|(r & Hr & Ht & Hv)].
      * left. destruct (decide (entity r0 = t)); [|exact H].
        cbn [default from_option id]. apply elem_of_union. left. exact H.
      * apply elem_of_cons in Hr as [->|Hr].
        -- left. rewrite decide_True by assumption. cbn [default from_option id].
           apply elem_of_union. right. apply elem_of_singleton. exact Hv.
        -- right. exists r. auto.
Qed.

(** What the final clean-up keeps of a set: the stripped form of every
    value that has a non-whitespace character. *)
Lemma elem_of_clean_values (vals : gset pystr) v :
  v ∈ clean_values vals
  <-> exists raw, raw ∈ vals /\ strip raw ≠ []
                  /\ v = strip_chars (str " ,.'") raw.
Proof.
  unfold clean_values. rewrite elem_of_map. split.
  - intros (raw & -> & Hraw). apply elem_of_filter in Hraw as [Hne Hin].
    exists raw. auto.
  - intros (raw & Hin & Hne & ->). exists raw. split; [reflexivity|].
    apply elem_of_filter. auto.
Qed.

Variable ner_pipeline : pystr -> option (list span).

(** When the pipeline succeeds on every chunk, the loop adds the spans of
    all chunks in order. *)
Lemma ner_loop_spans (chunks : list pystr) (results : list (list span)) :
  Forall2 (fun chunk rs => ner_pipeline chunk = Some rs) chunks results ->
  forall entities,
    ner_loop ner_pipeline chunks entities
    = Some (foldl add_span entities (concat results)).
Proof.
  induction 1 as [|chunk rs chunks results Hrs _ IH]; intros entities;
    [reflexivity|].
  cbn [ner_loop concat]. rewrite Hrs, IH, foldl_app. reflexivity.
Qed.

(** The index returned for a configuration on which chunking ends and a
    pipeline that succeeds on every chunk. *)
Lemma extract_legal_entities_returns fuel text chunk_size results :
  default_overlap < chunk_size ->
  (length (split text) < fuel)%nat ->
  Forall2 (fun chunk rs => ner_pipeline chunk = Some rs)
    (windows (split text) (Z.to_nat chunk_size)
       (Z.to_nat (chunk_size - default_overlap)))
    results ->
  extract_legal_entities ner_pipeline fuel text chunk_size
  = Return (clean_values <$> foldl add_span ∅ (concat results)).
Proof.
  intros Hsize Hfuel Hres. unfold extract_legal_entities.
  rewrite chunk_text_windows by (unfold default_overlap in *; lia).
  rewrite (ner_loop_spans _ _ Hres). reflexivity.
Qed.

(** What the clean-up guarantees of every stored value: it is the stripped
    form of a raw value that has a non-whitespace character. *)
Lemma extract_legal_entities_values fuel text chunk_size index t vals v :
  extract_legal_entities ner_pipeline fuel text chunk_size = Return index ->
  index !! t = Some vals -> v ∈ vals ->
  exists raw, strip raw ≠ [] /\ v = strip_chars (str " ,.'") raw.
Proof.
  unfold extract_legal_entities. intros Hrun Ht Hv.
  destruct (chunk_text fuel text chunk_size default_overlap) as [chunks| |];
    try discriminate.
  destruct (ner_loop ner_pipeline chunks ∅) as [entities|]; try discriminate.
  injection Hrun as <-. rewrite lookup_fmap in Ht.
  destruct (entities !! t) as [raws|]; try discriminate.
  injection Ht as <-. apply elem_of_clean_values in Hv as (raw & _ & Hne & ->).
  exists raw. auto.
Qed.

End ExtractLegalEntities.

Section EntityTheorems.

Implicit Types (ner_pipeline : pystr -> option (list span)) (text : pystr).

(** C8 (amended). Values that are equal after the normalization of the code
    (the [##] markers removed, then leading and trailing spaces, commas,
    periods and apostrophes stripped) are stored once. When the pipeline
    succeeds on every chunk and returns a span of type [t], the set of [t]
    in the returned index is the set of the stored forms of the [t] spans
    with a non-whitespace character; it has as many elements as there are
    distinct stored forms; and when all these spans have the stored form
    [v], as ["Acme Corp."] and ["Acme Corp"] have, it is exactly [{v}]. *)
Theorem extract_legal_entities_deduplicates ner_pipeline fuel text chunk_size
    results t :
  default_overlap < chunk_size ->
  (length (split text) < fuel)%nat ->
  Forall2 (fun chunk rs => ner_pipeline chunk = Some rs)
    (windows (split text) (Z.to_nat chunk_size)
       (Z.to_nat (chunk_size - default_overlap)))
    results ->
  (exists r, r ∈ concat results /\ entity r = t) ->
  exists index vals,
    extract_legal_entities ner_pipeline fuel text chunk_size = Return index
    /\ index !! t = Some vals
    /\ vals = list_to_set (stored_values t (concat results))
    /\ size vals = length (remove_dups (stored_values t (concat results)))
    /\ forall v,
         stored_values t (concat results) ≠ [] ->
         Forall (fun v' => v' = v) (stored_values t (concat results)) ->
         vals = {[ v ]}.
Proof.
  intros Hsize Hfuel Hres Hsome.
  rewrite (extract_legal_entities_returns _ _ _ _ results) by assumption.
  destruct (proj2 (foldl_add_span_is_Some (concat results) ∅ t))
    as [raws Hraws]; [right; exact Hsome|].
  pose proof (fun raw => foldl_add_span_elem (concat results) ∅ t raw) as Helem.
  rewrite Hraws in Helem.
  cbn [default from_option id] in Helem.
  assert (Hvals : clean_values raws
                  = list_to_set (stored_values t (concat results))).
  { apply set_eq. intros v.
    rewrite elem_of_clean_values, elem_of_list_to_set.
    unfold stored_values. rewrite list_elem_of_fmap. split.
    - intros (raw & Hraw & Hne & ->).
      apply Helem in Hraw as [Hraw|(r & Hr & Ht & ->)].
      + rewrite lookup_empty in Hraw. exfalso. revert Hraw.
        apply not_elem_of_empty.
      + exists r. split; [reflexivity|]. apply list_elem_of_filter. auto.
    - intros (r & -> & Hr). apply list_elem_of_filter in Hr as [[Ht Hne] Hr].
      exists (raw_value r). split; [|auto].
      apply Helem. right. exists r. auto. }
  exists (clean_values <$> foldl add_span ∅ (concat results)),
         (clean_values raws).
  split; [reflexivity|]. split; [rewrite lookup_fmap, Hraws; reflexivity|].
  split; [exact Hvals|]. split.
  - rewrite Hvals.
    rewrite <- (size_list_to_set (C := gset pystr)
                  (remove_dups (stored_values t (concat results))))
      by apply NoDup_remove_dups.
    f_equal. apply set_eq. intros v.
    rewrite !elem_of_list_to_set, elem_of_remove_dups. reflexivity.
  - intros v Hne Hall. rewrite Hvals. apply set_eq. intros v'.
    rewrite elem_of_list_to_set, elem_of_singleton. split.
    + intros Hv'. exact (proj1 (Forall_forall _ _) Hall v' Hv').
    + intros ->. destruct (stored_values t (concat results)) as [|v0 vs];
        [congruence|].
      apply Forall_cons in Hall as [-> _]. left.
Qed.

Lemma extract_legal_entities_deduplicates_witness :
  exists index,
    extract_legal_entities
      (org_pipeline (str "Acme Corp.") (str "Acme Corp")) 3 (str "a b") 201
    = Return index
    /\ index !! str "ORG" = Some {[ str "Acme Corp" ]}.
Proof.
  destruct (extract_legal_entities_deduplicates
              (org_pipeline (str "Acme Corp.") (str "Acme Corp"))
              3 (str "a b") 201
              [[Span (str "ORG") (str "Acme Corp.")];
               [Span (str "ORG") (str "Acme Corp")]]
              (str "ORG"))
    as (index & vals & Hrun & Hvals & _ & _ & Hone).
  - reflexivity.
  - vm_compute. lia.
  - replace (windows _ _ _) with [str "a b"; str "b"]
      by (vm_compute; reflexivity).
    repeat constructor.
  - eexists. split; [left | reflexivity].
  - exists index. split; [exact Hrun|]. rewrite Hvals. f_equal.
    apply Hone.
    + vm_compute. discriminate.
    + vm_compute. repeat constructor.
Defined.

(** C8 as stated fails: with the normalization of the specification
    (markers removed, leading and trailing punctuation and whitespace
    stripped) ["Acme Corp;"] and ["Acme Corp"] are equal, and so are a
    tab-padded ["Acme Corp"] and ["Acme Corp"]; the code strips only spaces,
    commas, periods and apostrophes and stores two values in both cases. *)
Lemma extract_legal_entities_deduplicates_counterexample :
  (spec_normalize (str "Acme Corp;") = spec_normalize (str "Acme Corp")
   /\ extract_legal_entities
        (org_pipeline (str "Acme Corp;") (str "Acme Corp")) 3 (str "a b") 201
      = Return {[ str "ORG" := {[ str "Acme Corp;"; str "Acme Corp" ]} ]})
  /\ (spec_normalize (tab :: str "Acme Corp") = spec_normalize (str "Acme Corp")
      /\ extract_legal_entities
           (org_pipeline (tab :: str "Acme Corp") (str "Acme Corp"))
           3 (str "a b") 201
         = Return {[ str "ORG" := {[ tab :: str "Acme Corp";
                                     str "Acme Corp" ]} ]}).
Proof. repeat split; vm_compute; reflexivity. Qed.

(** C5, the code at a failing input. The clean-up tests [v.strip()], the
    value with whitespace removed, but stores [v.strip(" ,.'")]: a word made
    of punctuation only passes the test and is stored as the empty string. *)
Lemma extract_legal_entities_stores_empty_value :
  extract_legal_entities
    (fun _ => Some [Span (str "ORG") (str ".")]) 4 (str "Acme Corp.") 500
  = Return {[ str "ORG" := {[ str "" ]} ]}.
Proof. vm_compute. reflexivity. Qed.

End EntityTheorems.

(** * Further properties of the code *)

(** ** [chunk_text]: termination, chunk sizes, reconstruction *)

Section ChunkTextMore.

Implicit Types (text : pystr) (words : list pystr).

(** On a text with at least one word the function returns precisely when
    the stride [chunk_size - overlap] is positive, whatever the sign of
    [chunk_size] and [overlap]. *)
Theorem chunk_text_returns_iff text chunk_size overlap :
  split text ≠ [] ->
  (exists chunks,
     returns (fun fuel => chunk_text fuel text chunk_size overlap) chunks)
  <-> 1 <= chunk_size - overlap.
Proof.
  intros Hne. split.
  - intros (chunks & fuel & Hrun).
    destruct (Z.le_gt_cases 1 (chunk_size - overlap)) as [H|H]; [exact H|].
    unfold chunk_text in Hrun. rewrite chunk_loop_stuck in Hrun;
      [discriminate | lia |].
    destruct (split text); [congruence | simpl; lia].
  - intros Hstride.
    destruct (num_chunks_spec (Z.of_nat (length (split text)))
                (chunk_size - overlap)) as (Hend & Hlast & Hle);
      [lia | assumption |].
    eexists. exists (S (length (split text))). unfold chunk_text.
    apply (chunk_loop_run _ _ _ Hstride
             (num_chunks (Z.of_nat (length (split text)))
                (chunk_size - overlap))); [lia | lia | intros; apply Hlast; lia].
Qed.

Lemma chunk_text_returns_iff_witness :
  exists chunks, returns (fun fuel => chunk_text fuel (str "a b c") (-1) (-3)) chunks.
Proof.
  apply (chunk_text_returns_iff (str "a b c") (-1) (-3)).
  - vm_compute. discriminate.
  - lia.
Defined.

Lemma word_count_window words size stride k :
  Forall is_word words ->
  word_count (window words size stride k)
  = Z.of_nat (Nat.min size (length words - k * stride)).
Proof.
  intros Hw. unfold word_count, window.
  rewrite split_join by (apply words_at_words; assumption).
  unfold words_at. rewrite length_take, length_drop. reflexivity.
Qed.

(** For a valid configuration every chunk holds at least one word and at
    most [window_size] words, and a chunk whose window lies inside the text
    holds exactly [window_size] words. *)
Theorem chunk_text_chunk_sizes text window_size overlap :
  valid_config window_size overlap ->
  exists chunks,
    (forall fuel, (length (split text) < fuel)%nat ->
       chunk_text fuel text window_size overlap = Return chunks)
    /\ Forall (fun chunk => 1 <= word_count chunk <= window_size) chunks
    /\ (forall (k : nat) chunk,
          chunks !! k = Some chunk ->
          Z.of_nat k * (window_size - overlap) + window_size
          <= Z.of_nat (length (split text)) ->
          word_count chunk = window_size).
Proof.
  intros (Hsize & Hov0 & Hov).
  set (size := Z.to_nat window_size).
  set (stride := Z.to_nat (window_size - overlap)).
  exists (windows (split text) size stride).
  assert (Hlookup : forall k chunk,
             windows (split text) size stride !! k = Some chunk ->
             (k * stride < length (split text))%nat
             /\ word_count chunk
                = Z.of_nat (Nat.min size (length (split text) - k * stride))).
  { intros k chunk Hk.
    assert (Hlt : (k < length (windows (split text) size stride))%nat)
      by (apply lookup_lt_is_Some; eauto).
    rewrite lookup_windows in Hk by assumption. injection Hk as <-.
    split; [apply (window_starts_inside _ size); [subst stride; lia | exact Hlt]|].
    apply word_count_window, split_words. }
  split; [| split].
  - intros fuel Hfuel. apply chunk_text_windows; lia.
  - apply Forall_lookup. intros k chunk Hk.
    destruct (Hlookup k chunk Hk) as [Hin ->]. subst size. lia.
  - intros k chunk Hk Hfull.
    destruct (Hlookup k chunk Hk) as [Hin ->]. subst size stride. nia.
Qed.

Lemma chunk_text_chunk_sizes_witness :
  exists chunks,
    chunk_text 5 (str "a b c d") 3 1 = Return chunks
    /\ Forall (fun chunk => 1 <= word_count chunk <= 3) chunks.
Proof.
  destruct (chunk_text_chunk_sizes (str "a b c d") 3 1)
    as (chunks & Hrun & Hsizes & _).
  - unfold valid_config. lia.
  - exists chunks. split; [apply Hrun; vm_compute; lia | exact Hsizes].
Defined.

Lemma concat_take_drop {A} (l : list A) (s m : nat) :
  concat ((fun k : nat => take s (drop (k * s) l)) <$> seq 0 m)
  = take (m * s) l.
Proof.
  induction m as [|m IH]; [reflexivity|].
  rewrite seq_S, fmap_app, concat_app, IH. cbn [fmap list_fmap concat].
  rewrite app_nil_r, Nat.add_0_l, take_take_drop. f_equal. lia.
Qed.

(** No word is lost or reordered: for a valid configuration, the first
    [stride] words of every chunk, put end to end, are the words of the
    text. *)
Theorem chunk_text_reconstruct text window_size overlap :
  valid_config window_size overlap ->
  exists chunks,
    (forall fuel, (length (split text) < fuel)%nat ->
       chunk_text fuel text window_size overlap = Return chunks)
    /\ concat ((fun chunk =>
                  take (Z.to_nat (window_size - overlap)) (split chunk))
               <$> chunks)
       = split text.
Proof.
  intros (Hsize & Hov0 & Hov).
  set (size := Z.to_nat window_size).
  set (stride := Z.to_nat (window_size - overlap)).
  exists (windows (split text) size stride). split.
  - intros fuel Hfuel. apply chunk_text_windows; lia.
  - unfold windows. rewrite <- list_fmap_compose.
    rewrite (list_fmap_ext _
               (fun k : nat => take stride (drop (k * stride) (split text)))).
    + rewrite concat_take_drop. apply take_ge.
      destruct (num_chunks_spec (Z.of_nat (length (split text)))
                  (Z.of_nat stride)) as (Hend & _ & _); [lia | lia |]. nia.
    + intros _ k _. cbn [compose]. unfold window.
      rewrite split_join by apply words_at_words, split_words.
      unfold words_at. rewrite take_take. f_equal. subst size stride. lia.
Qed.

Lemma chunk_text_reconstruct_witness :
  exists chunks,
    chunk_text 5 (str "a b c d") 3 1 = Return chunks
    /\ concat ((fun chunk => take 2 (split chunk)) <$> chunks)
       = split (str "a b c d").
Proof.
  destruct (chunk_text_reconstruct (str "a b c d") 3 1) as (chunks & Hrun & Hcat).
  - unfold valid_config. lia.
  - exists chunks. split; [apply Hrun; vm_compute; lia | exact Hcat].
Defined.

(** Consecutive chunks share exactly their overlap: what is left of a
    chunk after its first [stride] words is the first [overlap] words of the
    next chunk. *)
Theorem chunk_text_shared_overlap text window_size overlap :
  valid_config window_size overlap ->
  exists chunks,
    (forall fuel, (length (split text) < fuel)%nat ->
       chunk_text fuel text window_size overlap = Return chunks)
    /\ forall (k : nat) chunk next,
         chunks !! k = Some chunk -> chunks !! S k = Some next ->
         drop (Z.to_nat (window_size - overlap)) (split chunk)
         = take (Z.to_nat overlap) (split next).
Proof.
  intros (Hsize & Hov0 & Hov).
  set (size := Z.to_nat window_size).
  set (stride := Z.to_nat (window_size - overlap)).
  exists (windows (split text) size stride). split.
  - intros fuel Hfuel. apply chunk_text_windows; lia.
  - intros k chunk next Hk Hnext.
    assert (Hlt : (S k < length (windows (split text) size stride))%nat)
      by (apply lookup_lt_is_Some; eauto).
    rewrite lookup_windows in Hk, Hnext by lia.
    injection Hk as <-. injection Hnext as <-. unfold window.
    rewrite !split_join by apply words_at_words, split_words.
    unfold words_at. rewrite skipn_firstn_comm, drop_drop, take_take.
    f_equal; [subst size stride; lia | f_equal; lia].
Qed.

Lemma chunk_text_shared_overlap_witness :
  exists chunks,
    chunk_text 6 (str "a b c d e") 3 1 = Return chunks
    /\ forall (k : nat) chunk next,
         chunks !! k = Some chunk -> chunks !! S k = Some next ->
         drop 2 (split chunk) = take 1 (split next).
Proof.
  destruct (chunk_text_shared_overlap (str "a b c d e") 3 1)
    as (chunks & Hrun & Hshare).
  - unfold valid_config. lia.
  - exists chunks. split; [apply Hrun; vm_compute; lia | exact Hshare].
Defined.

End ChunkTextMore.

(** ** [summarize_large_text]: when the recursion ends *)

Section SummarizeMore.

Implicit Types (summarizer : pystr -> option pystr) (text : pystr).

(** A whitespace character between two strings keeps their words apart. *)
Lemma split_from_app_space a c b : forall cur,
  is_space c = true ->
  split_from cur (a ++ c :: b) = split_from cur a ++ split b.
Proof.
  induction a as [|x a IH]; intros cur Hc.
  - simpl. rewrite Hc. reflexivity.
  - simpl. destruct (is_space x).
    + rewrite IH by assumption. apply app_assoc.
    + apply IH. assumption.
Qed.

(** The words of a single-space join are the words of its members. *)
Lemma split_join_concat (l : list pystr) :
  split (join space l) = concat (split <$> l).
Proof.
  induction l as [|w l IH]; [reflexivity|].
  destruct l as [|w' l].
  - simpl. rewrite app_nil_r. reflexivity.
  - rewrite join_cons by discriminate.
    change (space ++ ?rest) with (32%N :: rest).
    unfold split at 1. rewrite split_from_app_space by reflexivity.
    rewrite IH. reflexivity.
Qed.

Lemma word_count_join_bound (l : list pystr) (b : Z) :
  0 <= b -> Forall (fun s => word_count s <= b) l ->
  word_count (join space l) <= Z.of_nat (length l) * b.
Proof.
  intros Hb Hall. unfold word_count. rewrite split_join_concat.
  induction Hall as [|s l Hs _ IH]; [simpl; lia|].
  cbn [fmap list_fmap concat length]. rewrite length_app.
  unfold word_count in Hs. lia.
Qed.

Lemma length_omap_le {A B} (f : A -> option B) (l : list A) :
  (length (omap f l) <= length l)%nat.
Proof.
  induction l as [|x l IH]; [reflexivity|].
  cbn [omap list_omap]. destruct (f x); simpl; lia.
Qed.

(** One round over a summarizer whose summaries have at most [b] words
    leaves at most [b] words per chunk. *)
Lemma word_count_round_of summarizer mcw b text :
  default_overlap < mcw -> 0 <= b ->
  (forall chunk summary,
     summarizer chunk = Some summary -> word_count summary <= b) ->
  word_count (round_of summarizer mcw text)
  <= Z.of_nat (num_chunks (Z.of_nat (length (split text)))
                 (mcw - default_overlap)) * b.
Proof.
  intros Hmcw Hb Hbound. unfold round_of.
  etransitivity.
  - apply (word_count_join_bound _ b Hb).
    apply Forall_forall. intros s Hs.
    apply list_elem_of_omap in Hs as (chunk & _ & Hsum). eauto.
  - pose proof (length_omap_le summarizer
                  (windows (split text) (Z.to_nat mcw)
                     (Z.to_nat (mcw - default_overlap)))) as Hlen.
    rewrite length_windows in Hlen.
    unfold default_overlap in *. rewrite Z2Nat.id in Hlen by lia. nia.
Qed.

(** The recursion ends on every text when the summaries are short: if every
    summary has at most [b] words and two such summaries fit in one stride
    ([2 * b <= max_chunk_words - 200]), the function returns a summary. *)
Theorem summarize_large_text_terminates summarizer max_chunk_words b :
  default_overlap < max_chunk_words -> 0 <= b ->
  2 * b <= max_chunk_words - default_overlap ->
  (forall chunk summary,
     summarizer chunk = Some summary -> word_count summary <= b) ->
  forall text,
  exists summary rounds,
    returns
      (fun fuel => summarize_large_text summarizer fuel text max_chunk_words)
      (summary, rounds).
Proof.
  intros Hmcw Hb H2b Hbound text.
  remember (length (split text)) as n eqn:Hn.
  revert text Hn. induction n as [n IH] using lt_wf_ind. intros text Hn.
  pose proof (word_count_round_of summarizer max_chunk_words b text
                Hmcw Hb Hbound) as Hround.
  destruct (Z.gtb_spec (word_count (round_of summarizer max_chunk_words text))
              max_chunk_words) as [Hgt|Hle].
  - destruct (num_chunks_spec (Z.of_nat (length (split text)))
                (max_chunk_words - default_overlap)) as (_ & Hlast & _);
      [lia | lia |].
    destruct (IH (length (split (round_of summarizer max_chunk_words text))))
      with (text := round_of summarizer max_chunk_words text)
      as (summary & rounds & fuel & Hrec); [|reflexivity|].
    { unfold word_count, default_overlap in *. subst n. nia. }
    exists summary, (S rounds), (S (Nat.max fuel (length (split text)))).
    rewrite summarize_large_text_step by (assumption || lia).
    destruct (Z.gtb_spec (word_count (round_of summarizer max_chunk_words text))
                max_chunk_words); [|lia].
    rewrite (summarize_large_text_mono _ _ _ _ _ _ Hrec) by lia.
    reflexivity.
  - exists (round_of summarizer max_chunk_words text), 1%nat,
      (S (length (split text))).
    rewrite summarize_large_text_step by (assumption || lia).
    destruct (Z.gtb_spec (word_count (round_of summarizer max_chunk_words text))
                max_chunk_words); [lia | reflexivity].
Qed.

Lemma summarize_large_text_terminates_witness :
  exists summary rounds,
    returns
      (fun fuel =>
         summarize_large_text (fun chunk => Some (str "in short")) fuel
           (str "one two three") 1000)
      (summary, rounds).
Proof.
  apply (summarize_large_text_terminates _ 1000 2).
  - reflexivity.
  - lia.
  - unfold default_overlap. lia.
  - intros chunk summary [= <-]. vm_compute. discriminate.
Defined.

(** With the identity summarizer and a window larger than the fixed
    overlap, a text with more words than the window is never returned from:
    each round gives a longer text. *)
Theorem summarize_identity_diverges text max_chunk_words :
  default_overlap < max_chunk_words ->
  word_count text > max_chunk_words ->
  never_returns
    (fun fuel =>
       summarize_large_text identity_summarizer fuel text max_chunk_words).
Proof.
  intros Hmcw Hlong fuel. apply summarize_identity_long; assumption.
Qed.

Lemma summarize_identity_diverges_witness :
  never_returns
    (fun fuel =>
       summarize_large_text identity_summarizer fuel
         (join space (replicate 202 (str "w"))) 201).
Proof.
  apply (summarize_identity_diverges _ 201).
  - reflexivity.
  - vm_compute. reflexivity.
Defined.

Lemma chunk_text_no_words fuel text chunk_size overlap :
  split text = [] ->
  chunk_text (S fuel) text chunk_size overlap = Return [].
Proof. intros Hnil. unfold chunk_text. rewrite Hnil. reflexivity. Qed.

(** With a text that has no words every round is empty. *)
Lemma summarize_large_text_no_words summarizer mcw :
  mcw < 0 ->
  forall fuel text, split text = [] ->
  summarize_large_text summarizer fuel text mcw = Timeout.
Proof.
  intros Hneg. induction fuel as [|fuel IH]; intros text Hnil; [reflexivity|].
  cbn [summarize_large_text]. rewrite chunk_text_no_words by assumption.
  cbn [summarize_chunks join].
  destruct (Z.gtb_spec (word_count []) mcw) as [_|Hle];
    [| unfold word_count in Hle; simpl in Hle; lia].
  rewrite IH by reflexivity. reflexivity.
Qed.

(** For a window no larger than the fixed overlap of 200 the function is
    of use on empty input only: it returns precisely when the text has no
    words and [max_chunk_words] is not negative, and then it returns the
    empty string after one round. *)
Theorem summarize_large_text_small_window summarizer text max_chunk_words :
  max_chunk_words <= default_overlap ->
  ((exists result,
      returns
        (fun fuel => summarize_large_text summarizer fuel text max_chunk_words)
        result)
   <-> split text = [] /\ 0 <= max_chunk_words)
  /\ (forall fuel result,
        summarize_large_text summarizer fuel text max_chunk_words
        = Return result ->
        result = ([], 1%nat)).
Proof.
  intros Hsmall.
  assert (Hwords : split text ≠ [] ->
            forall fuel,
              summarize_large_text summarizer fuel text max_chunk_words
              = Timeout).
  { intros Hne [|fuel]; [reflexivity|]. cbn [summarize_large_text].
    unfold chunk_text. rewrite chunk_loop_stuck; [reflexivity | lia |].
    destruct (split text); [congruence | simpl; lia]. }
  assert (Hempty : split text = [] -> 0 <= max_chunk_words ->
            forall fuel,
              summarize_large_text summarizer (S fuel) text max_chunk_words
              = Return ([], 1%nat)).
  { intros Hnil Hpos fuel. cbn [summarize_large_text].
    rewrite chunk_text_no_words by assumption. cbn [summarize_chunks join].
    destruct (Z.gtb_spec (word_count []) max_chunk_words) as [Hgt|_];
      [unfold word_count in Hgt; simpl in Hgt; lia | reflexivity]. }
  split; [split|].
  - intros (result & fuel & Hrun).
    destruct (split text) as [|w ws] eqn:Hsplit.
    + split; [reflexivity|].
      destruct (Z.le_gt_cases 0 max_chunk_words) as [H|H]; [exact H|].
      rewrite summarize_large_text_no_words in Hrun; [discriminate | lia |].
      exact Hsplit.
    + rewrite Hwords in Hrun by discriminate. discriminate.
  - intros [Hnil Hpos]. exists ([], 1%nat), 1%nat. apply Hempty; assumption.
  - intros fuel result Hrun.
    destruct (split text) as [|w ws] eqn:Hsplit.
    + destruct (Z.le_gt_cases 0 max_chunk_words) as [H|H].
      * destruct fuel as [|fuel]; [discriminate|].
        rewrite Hempty in Hrun by auto. congruence.
      * rewrite summarize_large_text_no_words in Hrun; [discriminate | lia |].
        exact Hsplit.
    + rewrite Hwords in Hrun by discriminate. discriminate.
Qed.

Lemma summarize_large_text_small_window_witness :
  (exists result,
     returns
       (fun fuel => summarize_large_text identity_summarizer fuel (str " ") 200)
       result)
  <-> split (str " ") = [] /\ 0 <= 200.
Proof.
  apply (summarize_large_text_small_window identity_summarizer (str " ") 200).
  reflexivity.
Defined.

End SummarizeMore.

(** ** [extract_legal_entities]: the returned index *)

Section EntitiesMore.

Variable ner_pipeline : pystr -> option (list span).

Implicit Types (text : pystr) (chunks : list pystr) (entities : entity_index).

(** The loop fails exactly when the pipeline fails on some chunk. *)
Lemma ner_loop_None chunks : forall entities,
  ner_loop ner_pipeline chunks entities = None
  <-> exists chunk, chunk ∈ chunks /\ ner_pipeline chunk = None.
Proof.
  induction chunks as [|c chunks IH]; intros entities; cbn [ner_loop].
  - split; [discriminate | intros (chunk & Hin & _); inversion Hin].
  - destruct (ner_pipeline c) as [rs|] eqn:Hc.
    + rewrite IH. split; intros (chunk & Hin & Hfail); exists chunk.
      * split; [right; exact Hin | exact Hfail].
      * apply elem_of_cons in Hin as [->|Hin]; [congruence | auto].
    + split; [|reflexivity]. intros _. exists c. split; [left | exact Hc].
Qed.

(** When the loop succeeds, the pipeline succeeded on every chunk. *)
Lemma ner_loop_Some chunks : forall entities entities',
  ner_loop ner_pipeline chunks entities = Some entities' ->
  exists results,
    Forall2 (fun chunk rs => ner_pipeline chunk = Some rs) chunks results
    /\ entities' = foldl add_span entities (concat results).
Proof.
  induction chunks as [|c chunks IH]; intros entities entities' H;
    cbn [ner_loop] in H.
  - injection H as <-. exists []. split; [constructor | reflexivity].
  - destruct (ner_pipeline c) as [rs|] eqn:Hc; [|discriminate].
    destruct (IH _ _ H) as (results & Hall & ->).
    exists (rs :: results). split; [constructor; assumption|].
    cbn [concat]. rewrite foldl_app. reflexivity.
Qed.

End EntitiesMore.

(** ** [extract_legal_entities]: results that lack a key *)

Section EntitiesFromDictsTheorems.

Variable ner_pipeline : pystr -> option (list ner_result).

Implicit Types (text : pystr) (chunks : list pystr) (entities : entity_index)
  (results : list ner_result).

(** The inner loop adds the spans of the results, unless one of them lacks
    a key. *)
Lemma add_results_spans_of results : forall entities,
  add_results results entities
  = foldl add_span entities <$> spans_of results.
Proof.
  induction results as [|r results IH]; intros entities; [reflexivity|].
  cbn [add_results spans_of]. unfold span_of.
  destruct (entity_key r) as [ent_type|]; [|reflexivity].
  destruct (word_key r) as [w|]; [|reflexivity].
  rewrite IH. destruct (spans_of results); reflexivity.
Qed.

Lemma spans_of_None results :
  spans_of results = None
  <-> exists r, r ∈ results /\ (entity_key r = None \/ word_key r = None).
Proof.
  induction results as [|r0 results IH]; cbn [spans_of].
  - split; [discriminate | intros (r & Hr & _); inversion Hr].
  - unfold span_of at 1.
    destruct (entity_key r0) as [ent_type|] eqn:He;
      [destruct (word_key r0) as [w|] eqn:Hw|].
    + destruct (spans_of results) as [spans|].
      * split; [discriminate|]. intros (r & Hr & Hbad).
        apply elem_of_cons in Hr as [->|Hr].
        -- destruct Hbad; congruence.
        -- assert (Habs : Some spans = None) by (apply IH; exists r; auto).
           discriminate.
      * split; [|reflexivity]. intros _.
        destruct (proj1 IH eq_refl) as (r & Hr & Hbad).
        exists r. split; [right; exact Hr | exact Hbad].
    + split; [|reflexivity]. intros _. exists r0. split; [left | auto].
    + split; [|reflexivity]. intros _. exists r0. split; [left | auto].
Qed.

Lemma ner_loop_dicts_spans chunks : forall entities,
  ner_loop_dicts ner_pipeline chunks entities
  = ner_loop (spans_pipeline ner_pipeline) chunks entities.
Proof.
  induction chunks as [|chunk chunks IH]; intros entities; [reflexivity|].
  cbn [ner_loop_dicts ner_loop]. unfold spans_pipeline at 1.
  destruct (ner_pipeline chunk) as [results|]; [|reflexivity].
  rewrite add_results_spans_of.
  destruct (spans_of results) as [spans|]; [|reflexivity].
  cbn [fmap option_fmap option_map]. apply IH.
Qed.

(** The function over dictionaries is the function over spans, with a
    missing key counted as a failure of the pipeline on that chunk. *)
Lemma extract_legal_entities_dicts_spans fuel text chunk_size :
  extract_legal_entities_dicts ner_pipeline fuel text chunk_size
  = extract_legal_entities (spans_pipeline ner_pipeline) fuel text chunk_size.
Proof.
  unfold extract_legal_entities_dicts, extract_legal_entities.
  destruct (chunk_text fuel text chunk_size default_overlap); [|reflexivity..].
  rewrite ner_loop_dicts_spans. reflexivity.
Qed.

(** The failures of the function: for a window larger than the fixed
    overlap, it raises precisely when, on one of the chunks of the text, the
    pipeline raises or returns a result without the key ['entity'] or the
    key ['word'] (a [KeyError], not caught); and otherwise it returns. *)
Theorem extract_legal_entities_dicts_raises fuel text chunk_size :
  default_overlap < chunk_size ->
  (length (split text) < fuel)%nat ->
  (extract_legal_entities_dicts ner_pipeline fuel text chunk_size = Raise
   <-> exists chunk,
         chunk ∈ windows (split text) (Z.to_nat chunk_size)
                   (Z.to_nat (chunk_size - default_overlap))
         /\ (ner_pipeline chunk = None
             \/ exists results r,
                  ner_pipeline chunk = Some results /\ r ∈ results
                  /\ (entity_key r = None \/ word_key r = None)))
  /\ (extract_legal_entities_dicts ner_pipeline fuel text chunk_size ≠ Raise ->
      exists index,
        extract_legal_entities_dicts ner_pipeline fuel text chunk_size
        = Return index).
Proof.
  intros Hsize Hfuel.
  assert (Hfail : forall chunk,
             spans_pipeline ner_pipeline chunk = None
             <-> ner_pipeline chunk = None
                 \/ exists results r,
                      ner_pipeline chunk = Some results /\ r ∈ results
                      /\ (entity_key r = None \/ word_key r = None)).
  { intros chunk. unfold spans_pipeline.
    destruct (ner_pipeline chunk) as [results|].
    - rewrite spans_of_None. split.
      + intros (r & Hr & Hbad). right. exists results, r. auto.
      + intros [H|(results' & r & [= <-] & Hr & Hbad)]; [discriminate|].
        exists r. auto.
    - split; [auto | reflexivity]. }
  unfold extract_legal_entities_dicts.
  rewrite chunk_text_windows by (unfold default_overlap in *; lia).
  rewrite ner_loop_dicts_spans.
  destruct (ner_loop (spans_pipeline ner_pipeline) _ ∅) as [entities|] eqn:Hloop.
  - split; [split; [discriminate|] | eauto].
    intros (chunk & Hin & Hbad). apply Hfail in Hbad.
    assert (Hnone : ner_loop (spans_pipeline ner_pipeline)
                      (windows (split text) (Z.to_nat chunk_size)
                         (Z.to_nat (chunk_size - default_overlap))) ∅ = None)
      by (apply ner_loop_None; eauto).
    congruence.
  - split; [split; [|reflexivity] | congruence].
    intros _. apply ner_loop_None in Hloop as (chunk & Hin & Hbad).
    exists chunk. split; [exact Hin | apply Hfail; exact Hbad].
Qed.

End EntitiesFromDictsTheorems.

Lemma extract_legal_entities_dicts_raises_witness :
  extract_legal_entities_dicts keyless_pipeline 3 (str "a b") 201 = Raise.
Proof.
  apply (extract_legal_entities_dicts_raises keyless_pipeline 3 (str "a b") 201).
  - reflexivity.
  - vm_compute. lia.
  - exists (str "b"). split.
    + replace (windows _ _ _) with [str "a b"; str "b"]
        by (vm_compute; reflexivity).
      right. left.
    + right. eexists _, _. split; [reflexivity|]. split; [left | right; reflexivity].
Defined.

Section EntityIndex.

Implicit Types (ner_pipeline : pystr -> option (list span)) (text : pystr).

(** The returned index, value by value: when the pipeline succeeds on every
    chunk, a string is stored under a type exactly when some span of that
    type has a word which, with the [##] markers removed, has a
    non-whitespace character and strips to that string. *)
Theorem extract_legal_entities_index ner_pipeline fuel text chunk_size results :
  default_overlap < chunk_size ->
  (length (split text) < fuel)%nat ->
  Forall2 (fun chunk rs => ner_pipeline chunk = Some rs)
    (windows (split text) (Z.to_nat chunk_size)
       (Z.to_nat (chunk_size - default_overlap)))
    results ->
  exists index,
    extract_legal_entities ner_pipeline fuel text chunk_size = Return index
    /\ forall t v,
         v ∈ default ∅ (index !! t)
         <-> exists r, r ∈ concat results /\ entity r = t
                       /\ strip (raw_value r) ≠ []
                       /\ v = strip_chars (str " ,.'") (raw_value r).
Proof.
  intros Hsize Hfuel Hres.
  rewrite (extract_legal_entities_returns _ _ _ _ results) by assumption.
  eexists. split; [reflexivity|]. intros t v. rewrite lookup_fmap.
  pose proof (fun raw => foldl_add_span_elem (concat results) ∅ t raw) as Helem.
  destruct (foldl add_span ∅ (concat results) !! t) as [vals|] eqn:Hvals;
    cbn [fmap option_fmap option_map default from_option id] in *.
  - rewrite elem_of_clean_values. split.
    + intros (raw & Hraw & Hne & ->).
      apply Helem in Hraw as [Hraw|(r & Hr & Ht & ->)].
      * rewrite lookup_empty in Hraw. exfalso. revert Hraw.
        apply not_elem_of_empty.
      * exists r. auto.
    + intros (r & Hr & Ht & Hne & ->). exists (raw_value r).
      split; [|auto]. apply Helem. right. exists r. auto.
  - split; [intros H; exfalso; revert H; apply not_elem_of_empty|].
    intros (r & Hr & Ht & _).
    assert (Hin : raw_value r ∈ (∅ : gset pystr)).
    { apply Helem. right. exists r. auto. }
    exfalso. revert Hin. apply not_elem_of_empty.
Qed.

Lemma extract_legal_entities_index_witness :
  exists index,
    extract_legal_entities
      (fun _ => Some [Span (str "ORG") (str "##Corp.")]) 3 (str "a b") 500
    = Return index
    /\ str "Corp" ∈ default ∅ (index !! str "ORG").
Proof.
  destruct (extract_legal_entities_index
              (fun _ => Some [Span (str "ORG") (str "##Corp.")])
              3 (str "a b") 500 [[Span (str "ORG") (str "##Corp.")]])
    as (index & Hrun & Hindex).
  - reflexivity.
  - vm_compute. lia.
  - replace (windows _ _ _) with [str "a b"] by (vm_compute; reflexivity).
    repeat constructor.
  - exists index. split; [exact Hrun|]. apply Hindex.
    exists (Span (str "ORG") (str "##Corp.")).
    split; [left|]. split; [reflexivity|].
    split; [vm_compute; discriminate | vm_compute; reflexivity].
Defined.

(** A type stays a key of the index even when the clean-up discards all its
    values: if the pipeline returns spans of a type and each of their words
    is empty or whitespace once the markers are removed, the index maps the
    type to the empty set. *)
Theorem extract_legal_entities_empty_set ner_pipeline fuel text chunk_size
    results t :
  default_overlap < chunk_size ->
  (length (split text) < fuel)%nat ->
  Forall2 (fun chunk rs => ner_pipeline chunk = Some rs)
    (windows (split text) (Z.to_nat chunk_size)
       (Z.to_nat (chunk_size - default_overlap)))
    results ->
  (exists r, r ∈ concat results /\ entity r = t) ->
  (forall r, r ∈ concat results -> entity r = t -> strip (raw_value r) = []) ->
  exists index,
    extract_legal_entities ner_pipeline fuel text chunk_size = Return index
    /\ index !! t = Some ∅.
Proof.
  intros Hsize Hfuel Hres Hsome Hblank.
  rewrite (extract_legal_entities_returns _ _ _ _ results) by assumption.
  eexists. split; [reflexivity|]. rewrite lookup_fmap.
  destruct (proj2 (foldl_add_span_is_Some (concat results) ∅ t))
    as [vals Hvals]; [right; exact Hsome|].
  pose proof (fun raw => foldl_add_span_elem (concat results) ∅ t raw) as Helem.
  rewrite Hvals in Helem |- *.
  cbn [fmap option_fmap option_map default from_option id] in *.
  f_equal. apply set_eq. intros v. rewrite elem_of_clean_values. split.
  - intros (raw & Hraw & Hne & _).
    apply Helem in Hraw as [Hraw|(r & Hr & Ht & ->)].
    + rewrite lookup_empty in Hraw. exact Hraw.
    + exfalso. apply Hne. apply Hblank; assumption.
  - intros H. exfalso. revert H. apply not_elem_of_empty.
Qed.

Lemma extract_legal_entities_empty_set_witness :
  exists index,
    extract_legal_entities
      (fun _ => Some [Span (str "MISC") (str "##")]) 3 (str "a b") 500
    = Return index
    /\ index !! str "MISC" = Some ∅.
Proof.
  apply (extract_legal_entities_empty_set _ 3 (str "a b") 500
           [[Span (str "MISC") (str "##")]]).
  - reflexivity.
  - vm_compute. lia.
  - replace (windows _ _ _) with [str "a b"] by (vm_compute; reflexivity).
    repeat constructor.
  - eexists. split; [left | reflexivity].
  - intros r Hr _. cbn [concat app] in Hr.
    apply elem_of_cons in Hr as [->|Hr]; [reflexivity | inversion Hr].
Defined.

End EntityIndex.

(** ** The sub-token marker never survives *)

Section Marker.

Implicit Types (s sub : pystr).

Lemma is_prefix_app sub : forall s t,
  is_prefix sub s = true -> is_prefix sub (s ++ t) = true.
Proof.
  induction sub as [|a sub IH]; intros s t H; [reflexivity|].
  destruct s as [|b s]; [discriminate|]. simpl in *.
  apply andb_true_iff in H as [Hab Hrest].
  rewrite Hab. simpl. apply IH. assumption.
Qed.

(** What does not occur in a string does not occur in a prefix of it. *)
Lemma contains_app_l sub s t :
  contains sub (s ++ t) = false -> contains sub s = false.
Proof.
  induction s as [|c s IH]; simpl; intros H.
  - destruct sub; [destruct t; discriminate | reflexivity].
  - apply orb_false_iff in H as [Hp Hrest].
    rewrite (IH Hrest), orb_false_r.
    destruct (is_prefix sub (c :: s)) eqn:Hq; [|reflexivity].
    apply (is_prefix_app _ _ t) in Hq. simpl in Hq. congruence.
Qed.

(** Nor in what [dropwhile] keeps of it. *)
Lemma contains_dropwhile sub p s :
  contains sub s = false -> contains sub (dropwhile p s) = false.
Proof.
  induction s as [|c s IH]; [trivial|]. intros H. simpl dropwhile.
  destruct (p c); [|exact H]. apply IH. simpl in H.
  apply orb_false_iff in H as [_ H]. exact H.
Qed.

Lemma contains_strip_chars sub chars s :
  contains sub s = false -> contains sub (strip_chars chars s) = false.
Proof.
  intros H. unfold strip_chars, lstrip, rstrip.
  set (p := fun c : N => bool_decide (c ∈ chars)).
  apply (contains_dropwhile sub p) in H.
  destruct (dropwhile_decompose p (rev (dropwhile p s))) as (t & Ht & _).
  apply (contains_app_l _ _ (rev t)).
  rewrite <- rev_app_distr, <- Ht, rev_involutive. exact H.
Qed.

(** After a match is taken out, the scan resumes past it, so what it emits
    never begins with a character that would complete a marker. *)
Lemma replace_from_marker s : forall skip,
  contains [35; 35]%N (replace_from [35; 35]%N [] skip s) = false
  /\ (skip = O ->
      forall c s', s = c :: s' -> c ≠ 35%N ->
      exists out, replace_from [35; 35]%N [] skip s = c :: out).
Proof.
  induction s as [|c s IH]; intros skip.
  - split; [reflexivity | discriminate].
  - destruct skip as [|k].
    + cbn [replace_from].
      destruct (is_prefix [35; 35]%N (c :: s)) eqn:Hp.
      * split; [apply IH|]. intros _ c' s' [= <- <-] Hc.
        cbn [is_prefix] in Hp. apply andb_true_iff in Hp as [Hp _].
        apply N.eqb_eq in Hp. congruence.
      * split; [| intros _ c' s' [= <- <-] _; eauto].
        destruct (IH O) as [Hrest Hhead].
        cbn [contains]. rewrite Hrest, orb_false_r.
        destruct (N.eq_dec c 35) as [->|Hc].
        -- destruct s as [|d s]; [reflexivity|].
           destruct (N.eq_dec d 35) as [->|Hd]; [discriminate Hp|].
           destruct (Hhead eq_refl d s eq_refl Hd) as [out ->].
           cbn [is_prefix app]. apply N.eqb_neq in Hd.
           rewrite (N.eqb_sym 35 d), Hd. reflexivity.
        -- cbn [is_prefix app]. apply N.eqb_neq in Hc.
           rewrite (N.eqb_sym 35 c), Hc. reflexivity.
    + cbn [replace_from]. split; [apply IH | discriminate].
Qed.

Lemma raw_value_no_marker (r : span) :
  contains (str "##") (raw_value r) = false.
Proof.
  unfold raw_value. change (str "##") with [35; 35]%N.
  change (str "") with (@nil N). apply replace_from_marker.
Qed.

(** No value of the returned index contains the marker [##], whatever words
    the pipeline returned. *)
Theorem extract_legal_entities_no_marker
    (ner_pipeline : pystr -> option (list span)) fuel text chunk_size
    index t vals v :
  extract_legal_entities ner_pipeline fuel text chunk_size = Return index ->
  index !! t = Some vals -> v ∈ vals ->
  contains (str "##") v = false.
Proof.
  unfold extract_legal_entities. intros Hrun Ht Hv.
  destruct (chunk_text fuel text chunk_size default_overlap) as [chunks| |];
    try discriminate.
  destruct (ner_loop ner_pipeline chunks ∅) as [entities|] eqn:Hloop;
    try discriminate.
  injection Hrun as <-. rewrite lookup_fmap in Ht.
  destruct (entities !! t) as [raws|] eqn:Hraws; try discriminate.
  injection Ht as <-. apply elem_of_clean_values in Hv as (raw & Hraw & _ & ->).
  apply contains_strip_chars.
  apply ner_loop_Some in Hloop as (results & _ & ->).
  pose proof (foldl_add_span_elem (concat results) ∅ t raw) as Helem.
  rewrite Hraws in Helem. cbn [default from_option id] in Helem.
  apply Helem in Hraw as [Hraw|(r & _ & _ & ->)].
  - rewrite lookup_empty in Hraw. exfalso. revert Hraw. apply not_elem_of_empty.
  - apply raw_value_no_marker.
Qed.

Lemma extract_legal_entities_no_marker_witness :
  contains (str "##") (str "#Corp") = false.
Proof.
  apply (extract_legal_entities_no_marker
           (fun _ => Some [Span (str "ORG") (str "###Corp.")])
           3 (str "a b") 500
           {[ str "ORG" := {[ str "#Corp" ]} ]} (str "ORG") {[ str "#Corp" ]}).
  - vm_compute. reflexivity.
  - vm_compute. reflexivity.
  - apply elem_of_singleton. reflexivity.
Defined.

End Marker.

(** ** Paths and the report file *)

Section Paths.

Implicit Types (p s : pystr) (c : N).

Lemma rfind_range c s : -1 <= Path.rfind c s < Z.of_nat (length s).
Proof.
  induction s as [|a s IH]; simpl Path.rfind; [simpl; lia|].
  cbn [length]. destruct (Z.leb_spec 0 (Path.rfind c s)); [lia|].
  destruct (a =? c)%N; lia.
Qed.

Lemma rfind_notin c s : c ∉ s -> Path.rfind c s = -1.
Proof.
  induction s as [|a s IH]; [reflexivity|]. intros Hnotin.
  apply not_elem_of_cons in Hnotin as [Hne Hs]. simpl.
  rewrite (IH Hs). simpl. apply N.eqb_neq in Hne.
  rewrite N.eqb_sym, Hne. reflexivity.
Qed.

Lemma rfind_app c s t :
  Path.rfind c (s ++ t)
  = if 0 <=? Path.rfind c t then Z.of_nat (length s) + Path.rfind c t
    else Path.rfind c s.
Proof.
  induction s as [|a s IH].
  { pose proof (rfind_range c t). simpl.
    destruct (Z.leb_spec 0 (Path.rfind c t)); lia. }
  cbn [app Path.rfind length]. rewrite IH.
  destruct (Z.leb_spec 0 (Path.rfind c t)) as [Ht|Ht].
  - destruct (Z.leb_spec 0 (Z.of_nat (length s) + Path.rfind c t)); lia.
  - reflexivity.
Qed.

Lemma rfind_snoc c s : Path.rfind c (s ++ [c]) = Z.of_nat (length s).
Proof. rewrite rfind_app. simpl. rewrite N.eqb_refl. simpl. lia. Qed.

(** [p[i:]] for an index that is not negative. *)
Lemma from_drop p (i : Z) : 0 <= i -> Path.from p i = drop (Z.to_nat i) p.
Proof.
  intros Hi. unfold Path.from, py_slice, slice_index.
  destruct (Z.ltb_spec i 0); [lia|].
  destruct (Z.ltb_spec (Z.of_nat (length p)) 0); [lia|].
  rewrite Z.min_id.
  destruct (Z.le_gt_cases i (Z.of_nat (length p))).
  - rewrite Z.min_l by lia. apply take_ge. rewrite length_drop. lia.
  - rewrite Z.min_r by lia. rewrite !drop_ge by lia. apply take_nil.
Qed.

(** [p[:i]] for an index that is not negative. *)
Lemma upto_take p (i : Z) : 0 <= i -> py_slice p 0 i = take (Z.to_nat i) p.
Proof.
  intros Hi. replace i with (0 + i) at 1 by lia.
  rewrite py_slice_words_at by lia. reflexivity.
Qed.

Lemma drop_rfind_notin c s : c ∉ drop (Z.to_nat (Path.rfind c s + 1)) s.
Proof.
  induction s as [|a s IH]; [simpl; apply not_elem_of_nil|].
  pose proof (rfind_range c s) as Hr. cbn [Path.rfind].
  destruct (Z.leb_spec 0 (Path.rfind c s)) as [Hfound|Hnone].
  - replace (Z.to_nat (Path.rfind c s + 1 + 1))
      with (S (Z.to_nat (Path.rfind c s + 1))) by lia.
    exact IH.
  - replace (Path.rfind c s) with (-1) in IH by lia. simpl in IH.
    destruct (N.eqb_spec a c) as [->|Hne]; simpl; [exact IH|].
    apply not_elem_of_cons. split; [congruence | exact IH].
Qed.

(** The last component of a path holds no separator. *)
Lemma basename_no_sep p : Path.sep ∉ Path.basename p.
Proof.
  unfold Path.basename. pose proof (rfind_range Path.sep p).
  rewrite from_drop by lia. apply drop_rfind_notin.
Qed.

Lemma not_elem_of_take c s n : c ∉ s -> c ∉ take n s.
Proof.
  intros Hs Hin. apply Hs. rewrite <- (take_drop n s).
  apply elem_of_app. left. exact Hin.
Qed.

(** Nor does the root that [splitext] keeps of it. *)
Lemma splitext_root_no_sep s :
  Path.sep ∉ s -> Path.sep ∉ fst (Path.splitext s).
Proof.
  intros Hs. unfold Path.splitext.
  destruct (_ && _) eqn:Hcut; [|exact Hs]. cbn [fst].
  apply andb_true_iff in Hcut as [Hgt _].
  pose proof (rfind_range Path.sep s). apply Z.gtb_lt in Hgt.
  rewrite upto_take by lia. apply not_elem_of_take. exact Hs.
Qed.

(** The report path, put together. *)
Lemma output_file_of_form (file_path : pystr) :
  let name :=
    fst (Path.splitext (Path.basename file_path)) ++ str "_analysis.txt" in
  output_file_of file_path = str "legal_document_analysis/" ++ name
  /\ Path.sep ∉ name.
Proof.
  cbv zeta. unfold output_file_of.
  set (base_name := fst (Path.splitext (Path.basename file_path))).
  assert (Hbase : Path.sep ∉ base_name)
    by apply splitext_root_no_sep, basename_no_sep.
  assert (Hname : Path.sep ∉ base_name ++ str "_analysis.txt").
  { intros Hin. apply elem_of_app in Hin as [Hin|Hin]; [auto|].
    apply list_elem_of_In in Hin. vm_compute in Hin. intuition discriminate. }
  split; [|exact Hname]. unfold Path.join.
  rewrite bool_decide_eq_false_2.
  - replace (bool_decide (str "legal_document_analysis" = []) || _)
      with false by (vm_compute; reflexivity).
    reflexivity.
  - intros Hhead. apply Hname.
    destruct (base_name ++ str "_analysis.txt") as [|c name];
      [discriminate|].
    injection Hhead as ->. left.
Qed.

(** The report is always written directly inside the folder
    [legal_document_analysis]: its path is the folder, a separator, and a
    file name that holds no separator, whatever the input path. *)
Theorem output_file_inside_folder (file_path : pystr) :
  exists name,
    output_file_of file_path = str "legal_document_analysis/" ++ name
    /\ Path.sep ∉ name.
Proof. eexists. apply output_file_of_form. Qed.

(** The last component of [prefix ++ name], when [prefix] is empty or ends
    with a separator and [name] holds none, is [name]. *)
Lemma basename_app prefix name :
  prefix = [] \/ last prefix = Some Path.sep ->
  Path.sep ∉ name ->
  Path.basename (prefix ++ name) = name.
Proof.
  intros Hprefix Hname. unfold Path.basename.
  pose proof (rfind_range Path.sep (prefix ++ name)).
  rewrite from_drop by lia.
  rewrite rfind_app, (rfind_notin _ _ Hname). simpl.
  destruct Hprefix as [->|Hlast]; [reflexivity|].
  apply last_Some in Hlast as [dir ->].
  rewrite rfind_snoc.
  replace (Z.to_nat (Z.of_nat (length dir) + 1))
    with (length (dir ++ [Path.sep])) by (rewrite length_app; simpl; lia).
  apply drop_app_length.
Qed.

(** [splitext] of a file name [stem.ext] whose stem is not empty and holds
    no dot. *)
Lemma splitext_stem_ext stem ext :
  stem ≠ [] -> Path.extsep ∉ stem -> Path.sep ∉ stem ->
  Path.extsep ∉ ext -> Path.sep ∉ ext ->
  Path.splitext (stem ++ Path.extsep :: ext) = (stem, Path.extsep :: ext).
Proof.
  intros Hne Hdot Hsep Hdot' Hsep'. unfold Path.splitext.
  assert (Hs : Path.rfind Path.sep (stem ++ Path.extsep :: ext) = -1).
  { apply rfind_notin. intros Hin.
    apply elem_of_app in Hin as [Hin|Hin]; [auto|].
    apply elem_of_cons in Hin as [Hin|Hin]; [discriminate | auto]. }
  assert (Hd : Path.rfind Path.extsep (stem ++ Path.extsep :: ext)
               = Z.of_nat (length stem)).
  { change (stem ++ Path.extsep :: ext)
      with (stem ++ [Path.extsep] ++ ext).
    rewrite app_assoc, rfind_app, (rfind_notin _ _ Hdot'). simpl.
    apply rfind_snoc. }
  rewrite Hs, Hd. simpl Z.add.
  rewrite !upto_take, from_drop by lia. rewrite !Nat2Z.id.
  rewrite !take_app_length, drop_app_length.
  replace (Z.of_nat (length stem) >? -1) with true by (symmetry; lia).
  destruct stem as [|c stem]; [congruence|].
  apply not_elem_of_cons in Hdot as [Hc _]. cbn [existsb].
  apply N.eqb_neq in Hc. rewrite N.eqb_sym, Hc. reflexivity.
Qed.

(** The directory and the extension of the input are forgotten: every
    file [stem.ext], in any directory and with any extension, has its
    report at [legal_document_analysis/stem_analysis.txt], so two such
    inputs with the same stem share one report file. *)
Theorem output_file_forgets_dir_and_ext prefix stem ext :
  prefix = [] \/ last prefix = Some Path.sep ->
  stem ≠ [] -> Path.extsep ∉ stem -> Path.sep ∉ stem ->
  Path.extsep ∉ ext -> Path.sep ∉ ext ->
  output_file_of (prefix ++ stem ++ Path.extsep :: ext)
  = str "legal_document_analysis/" ++ stem ++ str "_analysis.txt".
Proof.
  intros Hprefix Hne Hdot Hsep Hdot' Hsep'.
  destruct (output_file_of_form
              (prefix ++ stem ++ Path.extsep :: ext)) as [Hform _].
  rewrite Hform. rewrite basename_app; [| exact Hprefix |].
  - rewrite splitext_stem_ext by assumption. reflexivity.
  - intros Hin. apply elem_of_app in Hin as [Hin|Hin]; [auto|].
    apply elem_of_cons in Hin as [Hin|Hin]; [discriminate | auto].
Qed.

Lemma output_file_forgets_dir_and_ext_witness :
  output_file_of (str "/home/u/contract.pdf")
  = str "legal_document_analysis/contract_analysis.txt".
Proof.
  apply (output_file_forgets_dir_and_ext
           (str "/home/u/") (str "contract") (str "pdf"));
    try (intros Hin; apply list_elem_of_In in Hin; vm_compute in Hin;
         intuition discriminate).
  - right. reflexivity.
  - discriminate.
Defined.

Lemma rfind_replicate c (k : nat) :
  Path.rfind c (replicate k c) = Z.of_nat k - 1.
Proof.
  induction k as [|k IH]; [reflexivity|].
  cbn [replicate Path.rfind]. rewrite IH, N.eqb_refl.
  destruct (Z.leb_spec 0 (Z.of_nat k - 1)); lia.
Qed.

Lemma existsb_not_extsep_replicate (k : nat) :
  existsb (fun c => negb (c =? Path.extsep)%N) (replicate k Path.extsep)
  = false.
Proof. induction k as [|k IH]; [reflexivity | exact IH]. Qed.

(** A path has no extension when its last component is a run of dots
    followed by a name without dots: no dot at all, or leading dots only. *)
Lemma splitext_no_extension p (k : nat) rest :
  Path.basename p = replicate k Path.extsep ++ rest ->
  Path.extsep ∉ rest ->
  Path.splitext p = (p, []).
Proof.
  intros Hbase Hrest. unfold Path.splitext.
  pose proof (rfind_range Path.sep p) as Hsep.
  set (si := Path.rfind Path.sep p) in *.
  unfold Path.basename in Hbase. fold si in Hbase.
  rewrite from_drop in Hbase by lia.
  assert (Hp : p = take (Z.to_nat (si + 1)) p
                   ++ replicate k Path.extsep ++ rest).
  { rewrite <- Hbase. symmetry. apply take_drop. }
  assert (Hdot : Path.rfind Path.extsep p
                 = if 0 <=? Z.of_nat k - 1 then si + Z.of_nat k
                   else Path.rfind Path.extsep (take (Z.to_nat (si + 1)) p)).
  { rewrite Hp at 1. rewrite rfind_app, rfind_app.
    rewrite (rfind_notin _ _ Hrest). cbn [Z.leb Z.compare].
    rewrite rfind_replicate, length_take.
    destruct (Z.leb_spec 0 (Z.of_nat k - 1)); [lia | reflexivity]. }
  rewrite Hdot. destruct (Z.leb_spec 0 (Z.of_nat k - 1)) as [Hk|Hk].
  - replace (si + Z.of_nat k) with (si + 1 + (Z.of_nat k - 1)) by lia.
    rewrite py_slice_words_at by lia. rewrite Hbase.
    rewrite take_app_le by (rewrite length_replicate; lia).
    rewrite take_replicate.
    rewrite existsb_not_extsep_replicate, andb_false_r. reflexivity.
  - pose proof (rfind_range Path.extsep (take (Z.to_nat (si + 1)) p)) as Hr.
    rewrite length_take in Hr.
    destruct (Z.gtb_spec
                (Path.rfind Path.extsep (take (Z.to_nat (si + 1)) p)) si);
      [lia | reflexivity].
Qed.

End Paths.

(** ** [extract_text]: unsupported files *)

Section ExtractTextMore.

Variable lower : pystr -> pystr.
Variable fs : files.

(** A file whose last path component has no extension (no dot, or dots
    only in front, as in [.pdf]) is refused with a [ValueError] that names
    an empty file type; no reader is consulted. *)
Theorem extract_text_no_extension file_path (k : nat) rest :
  lower [] = [] ->
  Path.basename file_path = replicate k Path.extsep ++ rest ->
  Path.extsep ∉ rest ->
  extract_text lower fs file_path
  = ValueError (str "Unsupported file type: ").
Proof.
  intros Hlower Hbase Hrest. unfold extract_text.
  rewrite (splitext_no_extension _ _ _ Hbase Hrest). cbn [snd].
  rewrite Hlower. reflexivity.
Qed.

End ExtractTextMore.

Lemma extract_text_no_extension_witness :
  extract_text (fun s => s) demo_files (str "docs.v2/.pdf")
  = ValueError (str "Unsupported file type: ").
Proof.
  apply (extract_text_no_extension _ _ (str "docs.v2/.pdf") 1 (str "pdf")).
  - reflexivity.
  - reflexivity.
  - intros Hin. apply list_elem_of_In in Hin. vm_compute in Hin.
    intuition discriminate.
Defined.

(** ** The readers: page and paragraph boundaries *)

Section Readers.

Variable fs : files.

Implicit Types (doc : list pdf_page) (texts : list pystr).

(** A line feed after each text keeps the words of the texts apart. *)
Lemma split_concat_lines texts :
  split (concat ((fun t => t ++ newline) <$> texts))
  = concat (split <$> texts).
Proof.
  induction texts as [|t texts IH]; [reflexivity|].
  cbn [fmap list_fmap concat]. rewrite <- app_assoc.
  change (newline ++ ?rest) with (10%N :: rest).
  unfold split at 1. rewrite split_from_app_space by reflexivity.
  rewrite IH. reflexivity.
Qed.

(** The words of a join over a whitespace character are the words of its
    members. *)
Lemma split_join_whitespace c texts :
  is_space c = true ->
  split (join [c] texts) = concat (split <$> texts).
Proof.
  intros Hc. induction texts as [|t texts IH]; [reflexivity|].
  destruct texts as [|t' texts].
  - simpl. rewrite app_nil_r. reflexivity.
  - rewrite join_cons by discriminate.
    change ([c] ++ ?rest) with (c :: rest).
    unfold split at 1. rewrite split_from_app_space by assumption.
    rewrite IH. reflexivity.
Qed.

(** The text the loop takes for a page: its text layer, or the OCR of its
    rendering when the text layer is blank. *)
Lemma pdf_pages_text_returns doc texts : forall text,
  Forall2 (fun page t =>
             if decide (strip (get_text page) = [])
             then image_to_string page = Some t
             else t = get_text page) doc texts ->
  pdf_pages_text doc text
  = Return (text ++ concat ((fun t => t ++ newline) <$> texts)).
Proof.
  intros text Hall. revert text.
  induction Hall as [|page t doc texts Ht _ IH]; intros text.
  - simpl. rewrite app_nil_r. reflexivity.
  - cbn [pdf_pages_text fmap list_fmap concat].
    destruct (decide (strip (get_text page) = [])) as [Hblank|Hfull].
    + rewrite Hblank, Ht, IH. rewrite <- !app_assoc. reflexivity.
    + subst t. destruct (strip (get_text page)); [congruence|].
      rewrite IH. rewrite <- !app_assoc. reflexivity.
Qed.

(** The words of the text read from a PDF are the words of its pages in
    page order; a page with a blank text layer contributes the words of its
    OCR, and the OCR of a page that has text is not used. Words of different
    pages are never run together. *)
Theorem extract_text_from_pdf_words pdf_path doc texts :
  fitz_open fs pdf_path = Some doc ->
  Forall2 (fun page t =>
             if decide (strip (get_text page) = [])
             then image_to_string page = Some t
             else t = get_text page) doc texts ->
  exists text,
    extract_text_from_pdf fs pdf_path = Return text
    /\ split text = concat (split <$> texts).
Proof.
  intros Hopen Hall. unfold extract_text_from_pdf. rewrite Hopen.
  rewrite (pdf_pages_text_returns _ _ _ Hall). eexists.
  split; [reflexivity|]. simpl app. apply split_concat_lines.
Qed.

Lemma pdf_pages_text_raises doc : forall text,
  pdf_pages_text doc text = Raise
  <-> exists page, page ∈ doc /\ strip (get_text page) = []
                   /\ image_to_string page = None.
Proof.
  induction doc as [|page doc IH]; intros text; cbn [pdf_pages_text].
  - split; [discriminate | intros (pg & Hin & _); inversion Hin].
  - destruct (strip (get_text page)) as [|c s] eqn:Hstrip.
    + destruct (image_to_string page) as [ocr|] eqn:Hocr.
      * rewrite IH. split; intros (pg & Hin & Hb & Hf); exists pg.
        -- split; [right; exact Hin | auto].
        -- apply elem_of_cons in Hin as [->|Hin]; [congruence | auto].
      * split; [|reflexivity]. intros _. exists page.
        split; [left | auto].
    + rewrite IH. split; intros (pg & Hin & Hb & Hf); exists pg.
      * split; [right; exact Hin | auto].
      * apply elem_of_cons in Hin as [->|Hin]; [congruence | auto].
Qed.

(** Reading a PDF raises exactly when the file cannot be opened or some
    page with a blank text layer cannot be read by OCR; one such page
    loses the text of the whole document. *)
Theorem extract_text_from_pdf_raises pdf_path :
  extract_text_from_pdf fs pdf_path = Raise
  <-> fitz_open fs pdf_path = None
      \/ exists doc page,
           fitz_open fs pdf_path = Some doc /\ page ∈ doc
           /\ strip (get_text page) = [] /\ image_to_string page = None.
Proof.
  unfold extract_text_from_pdf.
  destruct (fitz_open fs pdf_path) as [doc|].
  - rewrite pdf_pages_text_raises. split.
    + intros (page & Hin & Hb & Hf). right. exists doc, page. auto.
    + intros [H|(doc' & page & [= <-] & Hin & Hb & Hf)]; [discriminate|].
      exists page. auto.
  - split; [auto | reflexivity].
Qed.

(** The words of the text read from a DOCX file are the words of its
    paragraphs in order. *)
Theorem extract_text_from_docx_words docx_path paragraphs :
  docx_paragraphs fs docx_path = Some paragraphs ->
  exists text,
    extract_text_from_docx fs docx_path = Return text
    /\ split text = concat (split <$> paragraphs).
Proof.
  intros Hdoc. unfold extract_text_from_docx. rewrite Hdoc. eexists.
  split; [reflexivity|]. apply split_join_whitespace. reflexivity.
Qed.

End Readers.

Lemma extract_text_from_pdf_words_witness :
  exists text,
    extract_text_from_pdf demo_files (str "a.pdf") = Return text
    /\ split text = [str "first"; str "page"; str "scanned"; str "page"].
Proof.
  apply (extract_text_from_pdf_words demo_files (str "a.pdf") demo_doc
           [str "first page"; str "scanned page"]).
  - reflexivity.
  - repeat constructor.
Defined.

Lemma extract_text_from_docx_words_witness :
  exists text,
    extract_text_from_docx demo_files (str "a.docx") = Return text
    /\ split text = [str "one"; str "two"; str "three"].
Proof.
  apply (extract_text_from_docx_words demo_files (str "a.docx")
           [str "one two"; str ""; str "three"]).
  reflexivity.
Defined.

(** ** [process_legal_document]: what stops a document *)

Section Pipeline.

Variable lower : pystr -> pystr.
Variable fs : files.
Variable summarizer : pystr -> option pystr.
Variable ner_pipeline : pystr -> option (list span).

(** Unlike a failure of the summarizer, a failure of the entity pipeline is
    not caught: when it raises on one of the 500-word chunks of the text,
    the function returns no report path, whatever the summarizer did. *)
Theorem process_legal_document_ner_failure file_path text :
  extract_text lower fs file_path = Extracted text ->
  (exists chunk,
     chunk ∈ windows (split text) 500 300 /\ ner_pipeline chunk = None) ->
  forall fuel output_file,
    process_legal_document lower fs summarizer ner_pipeline fuel file_path
    ≠ Return output_file.
Proof.
  intros Hext Hfail fuel output_file. unfold process_legal_document.
  rewrite Hext.
  destruct (summarize_large_text summarizer fuel text 1000) as [[summary k]| |];
    try discriminate.
  unfold extract_legal_entities.
  destruct (chunk_text_cases fuel text 500 default_overlap) as [Hc|Hc];
    [unfold default_overlap; lia | unfold default_overlap; lia | |];
    rewrite Hc; [discriminate|].
  change (Z.to_nat 500) with 500%nat.
  change (Z.to_nat (500 - default_overlap)) with 300%nat.
  destruct (ner_loop ner_pipeline (windows (split text) 500 300) ∅)
    as [entities|] eqn:Hloop; [|discriminate].
  apply (ner_loop_None ner_pipeline _ ∅) in Hfail. congruence.
Qed.

(** The steps in sequence, each one succeeding. *)
Lemma process_legal_document_success file_path text fuel0 summary rounds
    results :
  extract_text lower fs file_path = Extracted text ->
  summarize_large_text summarizer fuel0 text 1000 = Return (summary, rounds) ->
  Forall2 (fun chunk rs => ner_pipeline chunk = Some rs)
    (windows (split text) 500 300) results ->
  write_report fs (output_file_of file_path) = true ->
  forall fuel, (fuel0 <= fuel)%nat -> (length (split text) < fuel)%nat ->
    process_legal_document lower fs summarizer ner_pipeline fuel file_path
    = Return (output_file_of file_path).
Proof.
  intros Hext Hsum Hner Hwrite fuel Hfuel0 Hfuel.
  unfold process_legal_document. rewrite Hext.
  rewrite (summarize_large_text_mono _ _ _ _ _ _ Hsum) by assumption.
  rewrite (extract_legal_entities_returns _ _ _ _ results);
    [| reflexivity | assumption | exact Hner].
  rewrite Hwrite. reflexivity.
Qed.

(** A summarizer that fails on every chunk gives an empty first round. *)
Lemma summarize_large_text_all_none text :
  (forall chunk, summarizer chunk = None) ->
  summarize_large_text summarizer (S (length (split text))) text 1000
  = Return ([], 1%nat).
Proof.
  intros Hfail.
  rewrite summarize_large_text_step by (reflexivity || lia).
  assert (Hround : round_of summarizer 1000 text = []).
  { unfold round_of.
    induction (windows (split text) (Z.to_nat 1000)
                 (Z.to_nat (1000 - default_overlap))) as [|chunk chunks IH];
      [reflexivity|].
    cbn [omap list_omap]. rewrite Hfail. exact IH. }
  rewrite Hround. reflexivity.
Qed.

(** A summarizer that fails on every chunk does not stop the document:
    when the text can be read, the entity pipeline succeeds on every
    500-word chunk and the report can be written, the report path is
    returned (with an empty summary), and chunking with the default sizes
    always ends. *)
Theorem process_legal_document_summarizer_failure file_path text results :
  extract_text lower fs file_path = Extracted text ->
  (forall chunk, summarizer chunk = None) ->
  Forall2 (fun chunk rs => ner_pipeline chunk = Some rs)
    (windows (split text) 500 300) results ->
  write_report fs (output_file_of file_path) = true ->
  forall fuel, (length (split text) < fuel)%nat ->
    process_legal_document lower fs summarizer ner_pipeline fuel file_path
    = Return (output_file_of file_path).
Proof.
  intros Hext Hfail Hner Hwrite fuel Hfuel.
  apply (process_legal_document_success file_path text
           (S (length (split text))) [] 1 results);
    [assumption | apply summarize_large_text_all_none; assumption
    | assumption | assumption | lia | assumption].
Qed.

End Pipeline.

Lemma process_legal_document_ner_failure_witness :
  returns_nothing
    (fun fuel =>
       process_legal_document (fun s => s) demo_files identity_summarizer
         (fun _ => None) fuel (str "a.txt")).
Proof.
  intros fuel output_file.
  apply (process_legal_document_ner_failure (fun s => s) demo_files
           identity_summarizer (fun _ => None) (str "a.txt")
           (str "Acme Corp. signed.")).
  - reflexivity.
  - exists (str "Acme Corp. signed."). split; [|reflexivity].
    replace (windows _ _ _) with [str "Acme Corp. signed."]
      by (vm_compute; reflexivity).
    left.
Defined.

Lemma process_legal_document_summarizer_failure_witness :
  process_legal_document (fun s => s) demo_files failing_summarizer
    (fun _ => Some []) 4 (str "dir/a.txt")
  = Return (str "legal_document_analysis/a_analysis.txt").
Proof.
  apply (process_legal_document_summarizer_failure (fun s => s) demo_files
           failing_summarizer (fun _ => Some []) (str "dir/a.txt")
           (str "Acme Corp. signed.") [[]]).
  - reflexivity.
  - reflexivity.
  - replace (windows _ _ _) with [str "Acme Corp. signed."]
      by (vm_compute; reflexivity).
    repeat constructor.
  - reflexivity.
  - vm_compute. lia.
Defined.

(** ** The demonstration interface: reading a PDF *)

Section StripTwice.

Implicit Types (s : pystr).

Lemma strip_head s c s' : strip s = c :: s' -> is_space c = false.
Proof.
  unfold strip, lstrip, rstrip.
  destruct (dropwhile is_space s) as [|a x] eqn:Hx; [discriminate|].
  pose proof (dropwhile_head _ _ _ _ Hx) as Ha.
  simpl rev. rewrite dropwhile_snoc by assumption.
  rewrite rev_app_distr. simpl. intros [= <- _]. exact Ha.
Qed.

Lemma strip_last s t c : strip s = t ++ [c] -> is_space c = false.
Proof.
  unfold strip, rstrip. intros Heq.
  apply (f_equal (@rev N)) in Heq.
  rewrite rev_involutive, rev_app_distr in Heq. simpl in Heq.
  exact (dropwhile_head _ _ _ _ Heq).
Qed.

(** Stripping a stripped string changes nothing. *)
Lemma strip_strip s : strip (strip s) = strip s.
Proof.
  assert (Hl : lstrip is_space (strip s) = strip s).
  { unfold lstrip. destruct (strip s) as [|c s'] eqn:Hs; [reflexivity|].
    simpl. rewrite (strip_head _ _ _ Hs). reflexivity. }
  unfold strip at 1. rewrite Hl. unfold rstrip.
  destruct (rev (strip s)) as [|c t] eqn:Hrev.
  - apply (f_equal (@rev N)) in Hrev. rewrite rev_involutive in Hrev.
    rewrite Hrev. reflexivity.
  - assert (Hs : strip s = rev t ++ [c]).
    { rewrite <- (rev_involutive (strip s)), Hrev. reflexivity. }
    simpl. rewrite (strip_last _ _ _ Hs). simpl. symmetry. exact Hs.
Qed.

Lemma split_leading_ws t s :
  Forall (fun c => is_space c = true) t -> split (t ++ s) = split s.
Proof.
  induction 1 as [|c t Hc _ IH]; [reflexivity|].
  unfold split in *. simpl. rewrite Hc. exact IH.
Qed.

(** The words of a join over a non-empty whitespace separator are the
    words of its members. *)
Lemma split_join_sep sep (texts : list pystr) :
  sep ≠ [] -> Forall (fun c => is_space c = true) sep ->
  split (join sep texts) = concat (split <$> texts).
Proof.
  intros Hne Hsep. induction texts as [|t texts IH]; [reflexivity|].
  destruct texts as [|t' texts].
  - simpl. rewrite app_nil_r. reflexivity.
  - rewrite join_cons by discriminate.
    destruct sep as [|c sep]; [congruence|].
    inversion Hsep as [|? ? Hc Hsep']; subst.
    change ((c :: sep) ++ ?x) with (c :: (sep ++ x)).
    unfold split at 1. rewrite split_from_app_space by assumption.
    rewrite split_leading_ws by assumption. rewrite IH. reflexivity.
Qed.

(** A blank string has no words. *)
Lemma split_blank s : strip s = [] -> split s = [].
Proof. intros Hs. rewrite <- split_strip, Hs. reflexivity. Qed.

End StripTwice.

Section UiPdf.

Variable image : Type.

Implicit Types (doc : list (Ui.page image)) (texts : list pystr)
  (imgs : list image).

(** What the loop collects: the text layers that are not blank, in page
    order, and the renderings of the blank pages, in page order. *)
Lemma pages_loop_returns doc : forall texts imgs texts' imgs',
  Ui.pages_loop image doc texts imgs = Return (texts', imgs') ->
  texts' = texts
           ++ filter (fun t => strip t ≠ []) (Ui.text_layer image <$> doc)
  /\ Forall2 (fun pg img => Ui.rendering image pg = Some img)
       (filter (fun pg => strip (Ui.text_layer image pg) = []) doc)
       (drop (length imgs) imgs')
  /\ take (length imgs) imgs' = imgs.
Proof.
  induction doc as [|pg doc IH]; intros texts imgs texts' imgs' H;
    cbn [Ui.pages_loop] in H.
  - injection H as <- <-. rewrite app_nil_r, drop_all, take_ge by lia.
    repeat split. constructor.
  - cbn [fmap list_fmap]. rewrite !filter_cons.
    destruct (strip (Ui.text_layer image pg)) as [|c s] eqn:Hstrip.
    + destruct (Ui.rendering image pg) as [img|] eqn:Himg; [|discriminate].
      destruct (IH _ _ _ _ H) as (Ht & Hi & Hpre).
      rewrite length_app in Hi, Hpre. cbn [length] in Hi, Hpre.
      rewrite decide_False by (intros Hne; apply Hne; reflexivity).
      rewrite decide_True by reflexivity.
      assert (Himgs' : imgs' = imgs ++ img :: drop (length imgs + 1) imgs').
      { rewrite <- (take_drop (length imgs + 1) imgs') at 1.
        rewrite Hpre, <- app_assoc. reflexivity. }
      split; [exact Ht|]. split.
      * rewrite Himgs' at 1. rewrite drop_app_length.
        constructor; assumption.
      * rewrite Himgs'. apply take_app_length.
    + destruct (IH _ _ _ _ H) as (Ht & Hi & Hpre).
      rewrite decide_True by discriminate.
      rewrite decide_False by discriminate.
      split; [rewrite Ht, <- app_assoc; reflexivity | auto].
Qed.

(** The text returned for a PDF carries no whitespace at either end, and
    its words are the words of all the pages in page order: words of
    different pages are never run together. *)
Theorem ui_extract_text_from_pdf_words doc text imgs :
  Ui.extract_text_from_pdf image (Some doc) = Return (text, imgs) ->
  strip text = text
  /\ split text = concat (split <$> (Ui.text_layer image <$> doc)).
Proof.
  unfold Ui.extract_text_from_pdf. intros H.
  destruct (Ui.pages_loop image doc [] []) as [[texts imgs']| |] eqn:Hloop;
    try discriminate.
  injection H as <- <-.
  apply pages_loop_returns in Hloop as (-> & _ & _). simpl app.
  split; [apply strip_strip|]. rewrite split_strip.
  rewrite split_join_sep; [| discriminate | repeat constructor].
  induction (Ui.text_layer image <$> doc) as [|t texts IH]; [reflexivity|].
  rewrite filter_cons. cbn [fmap list_fmap concat].
  destruct (decide (strip t ≠ [])) as [Hfull|Hblank].
  - cbn [fmap list_fmap concat]. rewrite IH. reflexivity.
  - rewrite (split_blank t); [exact IH|].
    destruct (strip t); [reflexivity|]. exfalso. apply Hblank. discriminate.
Qed.

(** Every page is accounted for once: the images returned are the
    renderings of the pages with a blank text layer, in page order, and
    together with the pages that have text they number as many as the
    pages. *)
Theorem ui_extract_text_from_pdf_images doc text imgs :
  Ui.extract_text_from_pdf image (Some doc) = Return (text, imgs) ->
  Forall2 (fun pg img => Ui.rendering image pg = Some img)
    (filter (fun pg => strip (Ui.text_layer image pg) = []) doc) imgs
  /\ (length imgs
      + length (filter (fun pg => strip (Ui.text_layer image pg) ≠ []) doc)
      = length doc)%nat.
Proof.
  unfold Ui.extract_text_from_pdf. intros H.
  destruct (Ui.pages_loop image doc [] []) as [[texts imgs']| |] eqn:Hloop;
    try discriminate.
  injection H as _ <-.
  apply pages_loop_returns in Hloop as (_ & Himgs & _).
  change (drop (length []) imgs') with imgs' in Himgs.
  split; [exact Himgs|].
  rewrite <- (Forall2_length _ _ _ Himgs).
  clear. induction doc as [|pg doc IH]; [reflexivity|].
  rewrite !filter_cons.
  destruct (decide (strip (Ui.text_layer image pg) = [])) as [Hb|Hb].
  - rewrite decide_False by (intros Hne; apply Hne; exact Hb).
    simpl. lia.
  - rewrite decide_True by exact Hb. simpl. lia.
Qed.

End UiPdf.

Lemma ui_extract_text_from_pdf_words_witness :
  strip (str "Page one." ++ newline ++ newline ++ str "Page three")
  = str "Page one." ++ newline ++ newline ++ str "Page three".
Proof.
  apply (ui_extract_text_from_pdf_words nat
           [ Ui.Build_page nat (str " Page one.") None;
             Ui.Build_page nat (str " ") (Some 2%nat);
             Ui.Build_page nat (str "Page three ") None ]
           _ [2%nat]).
  vm_compute. reflexivity.
Defined.

Lemma ui_extract_text_from_pdf_images_witness :
  Forall2 (fun pg img => Ui.rendering nat pg = Some img)
    (filter (fun pg => strip (Ui.text_layer nat pg) = [])
       [ Ui.Build_page nat (str " Page one.") None;
         Ui.Build_page nat (str " ") (Some 2%nat) ])
    [2%nat].
Proof.
  apply (ui_extract_text_from_pdf_images nat
           [ Ui.Build_page nat (str " Page one.") None;
             Ui.Build_page nat (str " ") (Some 2%nat) ]
           (str "Page one.") [2%nat]).
  vm_compute. reflexivity.
Defined.

(** ** The demonstration interface: [fake_summarize] *)

Section FakeSummarize.

Implicit Types (s cur text : pystr).

(** [re.split] always returns at least one piece. *)
Lemma sentences_from_nonempty s : forall cur after in_sep,
  Ui.sentences_from cur after in_sep s ≠ [].
Proof.
  induction s as [|c s IH]; intros cur after in_sep; cbn [Ui.sentences_from];
    [discriminate|].
  destruct (is_space c); [|apply IH].
  destruct in_sep; [apply IH|]. destruct after; [discriminate | apply IH].
Qed.

(** Without a sentence boundary there is one piece: the whole string. *)
Lemma sentences_from_no_boundary s : forall cur after,
  (after = true -> forall c s', s = c :: s' -> is_space c = false) ->
  (forall a c d b,
     s = a ++ c :: d :: b -> Ui.is_terminator c = true ->
     is_space d = false) ->
  Ui.sentences_from cur after false s = [cur ++ s].
Proof.
  induction s as [|c s IH]; intros cur after Hfirst Hnone;
    cbn [Ui.sentences_from].
  - rewrite app_nil_r. reflexivity.
  - assert (Hnone' : forall a c0 d b,
               s = a ++ c0 :: d :: b -> Ui.is_terminator c0 = true ->
               is_space d = false).
    { intros a c0 d b -> Hc0. apply (Hnone (c :: a) c0 d b); auto. }
    destruct (is_space c) eqn:Hc.
    + destruct after.
      * specialize (Hfirst eq_refl c s eq_refl). congruence.
      * rewrite IH; [rewrite <- app_assoc; reflexivity | discriminate | auto].
    + rewrite IH; [rewrite <- app_assoc; reflexivity | | auto].
      intros Hterm d b ->. apply (Hnone [] c d b); auto.
Qed.

(** The fallback to the first 500 characters is never taken, and there is
    no other cap: a text in which no [.], [!] or [?] is followed by
    whitespace is returned whole, stripped of the whitespace at its ends,
    however long it is. *)
Theorem fake_summarize_no_boundary text :
  (forall a c d b,
     strip text = a ++ c :: d :: b -> Ui.is_terminator c = true ->
     is_space d = false) ->
  Ui.fake_summarize text = strip text.
Proof.
  intros Hnone. unfold Ui.fake_summarize, Ui.re_split_sentences.
  rewrite sentences_from_no_boundary; [reflexivity | discriminate | exact Hnone].
Qed.

Lemma length_dropwhile p s : (length (dropwhile p s) <= length s)%nat.
Proof.
  induction s as [|c s IH]; [reflexivity|]. simpl.
  destruct (p c); simpl; lia.
Qed.

Lemma length_strip s : (length (strip s) <= length s)%nat.
Proof.
  unfold strip, rstrip, lstrip. rewrite length_rev.
  etransitivity; [apply length_dropwhile|]. rewrite length_rev.
  apply length_dropwhile.
Qed.

(** The pieces, joined by single spaces, are no longer than what was
    read: every separator is at least one character. *)
Lemma length_join_sentences s : forall cur after in_sep,
  (length (join space (Ui.sentences_from cur after in_sep s))
   <= length cur + length s)%nat.
Proof.
  induction s as [|c s IH]; intros cur after in_sep; cbn [Ui.sentences_from].
  - simpl. lia.
  - cbn [length]. destruct (is_space c).
    + destruct in_sep; [specialize (IH cur false true); lia|].
      destruct after.
      * rewrite join_cons by apply sentences_from_nonempty.
        rewrite !length_app. specialize (IH [] false true).
        simpl in *. lia.
      * specialize (IH (cur ++ [c]) false false).
        rewrite length_app in IH. simpl in IH. lia.
    + specialize (IH (cur ++ [c]) (Ui.is_terminator c) false).
      rewrite length_app in IH. simpl in IH. lia.
Qed.

Lemma length_join_first_two (l : list pystr) :
  (length (join space (py_slice l 0 2)) <= length (join space l))%nat.
Proof.
  change 2 with (0 + 2). rewrite py_slice_words_at by lia.
  change (Z.to_nat 2) with 2%nat. change (Z.to_nat 0) with 0%nat.
  rewrite drop_0.
  destruct l as [|a [|b [|c l]]]; try reflexivity.
  cbn [take]. rewrite (join_cons space a (b :: c :: l)) by discriminate.
  rewrite (join_cons space b (c :: l)) by discriminate.
  rewrite (join_cons space a [b]) by discriminate.
  cbn [join]. rewrite !length_app. lia.
Qed.

(** The summary is never longer than the text. *)
Theorem fake_summarize_length text :
  (length (Ui.fake_summarize text) <= length text)%nat.
Proof.
  unfold Ui.fake_summarize, Ui.re_split_sentences.
  destruct (Ui.sentences_from [] false false (strip text)) as [|p ps] eqn:Hs.
  - exfalso. revert Hs. apply sentences_from_nonempty.
  - rewrite <- Hs. etransitivity; [apply length_join_first_two|].
    etransitivity; [apply length_join_sentences|].
    simpl. apply length_strip.
Qed.

End FakeSummarize.

Lemma fake_summarize_no_boundary_witness :
  Ui.fake_summarize (str "  no full stop here  ") = str "no full stop here".
Proof.
  apply (fake_summarize_no_boundary (str "  no full stop here  ")).
  intros a c d b Heq Hc. exfalso.
  assert (Hin : c ∈ strip (str "  no full stop here  ")).
  { rewrite Heq. apply elem_of_app. right. left. }
  apply list_elem_of_In in Hin. vm_compute in Hin.
  unfold Ui.is_terminator in Hc.
  repeat (destruct Hin as [<-|Hin]; [discriminate Hc|]). exact Hin.
Defined.
